(** * game-logs-processor: parsers, streaming merge and state aggregation

    A shallow embedding of [src/parsers.py], [src/combiner.py] and
    [src/state.py], followed by the properties of the specification that
    those modules decide, and then of the rest of the pipeline: the two
    passes of [main.py] that build the state, the formatters of the combined
    log, and the rankings, tables and queries of [src/report.py].

    Conventions of the embedding.
    - Python text is a list of characters ([str]); only the ASCII range is
      modelled.  White space is the set that [str.strip], [int] and the
      class [\s] of a text pattern share in that range: the characters 9 to
      13 and 28 to 32.  [.] excludes the newline only.
    - Python integers are unbounded: [Z].  [int] has no limit on the number
      of digits it converts.
    - A call that may raise returns a [result]; [try ... except ValueError]
      is [except_ValueError].  Logging is left out.
    - [dict] objects whose iteration order is observable ([changes] in
      [Player.apply_inventory]) are insertion-ordered association lists, as
      in CPython 3.7 and later; dictionaries that are only looked up are
      [gmap]s, a [defaultdict(int)] being read through [getd].
    - A generator over a file is the list of what it yields; [next] takes
      the head.  The text of an output line is left to two abstract
      formatting functions, since [_format_timestamp] relies on
      [datetime]; [Formatting] has the two functions of the source, over a
      [_format_timestamp] that is left open.
    - A dictionary that is iterated, to be sorted afterwards, is a [gmap]
      read through [map_to_list]; the rankings are shown not to depend on the
      order.  [sorted] is a stable insertion sort.  The texts of the messages
      of the interactive session are not ASCII and are kept as the bytes of
      the source file. *)

From Stdlib Require Import ZArith List Ascii String Lia Bool Sorted Permutation
  DecimalString.
From stdpp Require Import base option gmap strings list fin_maps sorting.
Import ListNotations.
Open Scope Z_scope.

Set Warnings "-clear-no-such-hyp".

(** ** Python primitives used by the sources *)

Module Py.

Abbreviation str := (list ascii).

Definition lit (s : string) : str := list_ascii_of_string s.

Inductive exn : Type := ValueError | IndexError | AttributeError.

Inductive result (A : Type) : Type :=
| Ok (a : A)
| Raise (e : exn).
Arguments Ok {A} a.
Arguments Raise {A} e.

Definition bind {A B} (c : result A) (k : A -> result B) : result B :=
  match c with
  | Ok a => k a
  | Raise e => Raise e
  end.

(** [try: body  except ValueError: handler] *)
Definition except_ValueError {A} (body : result A) (handler : result A) : result A :=
  match body with
  | Raise ValueError => handler
  | r => r
  end.

Definition is_space (c : ascii) : bool :=
  let n := nat_of_ascii c in
  ((9 <=? n) && (n <=? 13) || (28 <=? n) && (n <=? 32))%nat.

Definition is_digit (c : ascii) : bool :=
  let n := nat_of_ascii c in ((48 <=? n) && (n <=? 57))%nat.

Definition digit_val (c : ascii) : Z := Z.of_nat (nat_of_ascii c) - 48.

Fixpoint lstrip (s : str) : str :=
  match s with
  | c :: r => if is_space c then lstrip r else s
  | [] => []
  end.

Definition rstrip (s : str) : str := rev (lstrip (rev s)).

(** [s.strip()] *)
Definition strip (s : str) : str := rstrip (lstrip s).

(** [s.split(sep)] for a one-character separator: every occurrence splits,
    and the empty string gives one empty field. *)
Fixpoint split (sep : ascii) (s : str) : list str :=
  match s with
  | [] => [[]]
  | c :: r =>
      if Ascii.eqb c sep then [] :: split sep r
      else match split sep r with
           | h :: t => (c :: h) :: t
           | [] => [[c]]
           end
  end.

(** [s.split(sep, maxsplit)] *)
Fixpoint splitn (sep : ascii) (s : str) (maxsplit : nat) {struct s} : list str :=
  match maxsplit with
  | O => [s]
  | S k =>
      match s with
      | [] => [[]]
      | c :: r =>
          if Ascii.eqb c sep then [] :: splitn sep r k
          else match splitn sep r maxsplit with
               | h :: t => (c :: h) :: t
               | [] => [[c]]
               end
      end
  end.

(** The digits of an [int] literal: decimal digits, with single underscores
    allowed between two digits. [prev] tells whether the previous character
    was a digit. *)
Fixpoint int_digits (acc : Z) (prev : bool) (s : str) : option Z :=
  match s with
  | [] => if prev then Some acc else None
  | c :: r =>
      if is_digit c then int_digits (10 * acc + digit_val c) true r
      else if Ascii.eqb c "_" && prev then int_digits acc false r
      else None
  end.

(** [int(s)] on text: surrounding white space is dropped, one optional sign,
    then the digits; anything else raises [ValueError]. *)
Definition int (s : str) : result Z :=
  let t := strip s in
  let v := match t with
           | c :: r =>
               if Ascii.eqb c "-" then Z.opp <$> int_digits 0 false r
               else if Ascii.eqb c "+" then int_digits 0 false r
               else int_digits 0 false t
           | [] => None
           end in
  match v with
  | Some z => Ok z
  | None => Raise ValueError
  end.

(** [l[i]] *)
Definition getitem {A} (l : list A) (i : nat) : result A :=
  match l !! i with
  | Some a => Ok a
  | None => Raise IndexError
  end.

(** [range(0, n, 2)] *)
Definition range_step2 (n : nat) : list nat :=
  map (fun k => 2 * k)%nat (seq 0 (Nat.div2 (n + 1))).

(** [d.get(k, 0)], and the read of a [defaultdict(int)] at [k] *)
Definition getd (d : gmap Z Z) (k : Z) : Z := default 0 (d !! k).

End Py.

Import Py.

Notation "'let*' x ':=' c 'in' k" := (Py.bind c (fun x => k))
  (at level 10, x name, c at level 100, k at level 200).

(** ** src/parsers.py *)

Module Parsers.

Record InventoryEvent : Type := mkInventoryEvent {
  inv_timestamp : Z;
  inv_player_id : Z;
  inv_action : str;
  inv_items : list (Z * Z);
  inv_line_no : option nat;
  inv_raw_line : str
}.

Record MoneyEvent : Type := mkMoneyEvent {
  mon_timestamp : Z;
  mon_player_id : Z;
  mon_action : str;
  mon_amount : Z;
  mon_reason : str;
  mon_line_no : option nat;
  mon_raw_line : str
}.

Definition ITEM_ADD : str := lit "ITEM_ADD".
Definition ITEM_REMOVE : str := lit "ITEM_REMOVE".
Definition MONEY_ADD : str := lit "MONEY_ADD".
Definition MONEY_REMOVE : str := lit "MONEY_REMOVE".

(** *** The regular expression [_INVENTORY_LINE_RE]

    [^\[(\d+)\]\s*(ITEM_ADD|ITEM_REMOVE)\s*\|\s*(\d+),\s*\((.* )\)\s*$]

    (group 4 is written here with a blank before its closing parenthesis;
    the pattern has none).

    The matcher consumes the text from the left, one element of the
    pattern at a time.  Every greedy quantifier but the last is followed by
    a character outside its class, and neither action word is a prefix of
    the other, so a shorter iteration can never succeed where the longest one
    fails: those elements need no backtracking.  Group 4 is followed by
    [\)\s*$], which [.] can match too: [match_items_tail] tries the longest
    capture first and falls back to shorter ones.  Lemma
    [inventory_line_match_spec] relates the matcher to the language of the
    pattern. *)

(** one literal character *)
Definition expect (c : ascii) (s : str) : option str :=
  match s with
  | x :: r => if Ascii.eqb x c then Some r else None
  | [] => None
  end.

(** a literal word *)
Fixpoint expect_lit (w : str) (s : str) : option str :=
  match w with
  | [] => Some s
  | c :: w' => r ← expect c s; expect_lit w' r
  end.

(** the longest prefix in a character class, and the rest *)
Fixpoint span (p : ascii -> bool) (s : str) : str * str :=
  match s with
  | c :: r => if p c then let '(a, b) := span p r in (c :: a, b) else ([], s)
  | [] => ([], [])
  end.

(** [(\d+)] *)
Definition digits1 (s : str) : option (str * str) :=
  let '(d, r) := span is_digit s in
  match d with
  | [] => None
  | _ => Some (d, r)
  end.

(** [\s*] *)
Definition spaces (s : str) : str := snd (span is_space s).

(** [(ITEM_ADD|ITEM_REMOVE)] *)
Definition action_group (s : str) : option (str * str) :=
  match expect_lit ITEM_ADD s with
  | Some r => Some (ITEM_ADD, r)
  | None => r ← expect_lit ITEM_REMOVE s; Some (ITEM_REMOVE, r)
  end.

(** group 4 and the end of the pattern, [(.* )\)\s*$]: [.] matches any
    character but a newline. *)
Fixpoint match_items_tail (s : str) : option str :=
  match s with
  | [] => None
  | c :: r =>
      let here := if Ascii.eqb c ")" && forallb is_space r then Some [] else None in
      if Ascii.eqb c "010" then here
      else match match_items_tail r with
           | Some g => Some (c :: g)
           | None => here
           end
  end.

(** [_INVENTORY_LINE_RE.match(text)]: the four groups, or [None]. *)
Definition inventory_line_match (text : str) : option (str * str * str * str) :=
  r ← expect "[" text;
  '(g1, r) ← digits1 r;
  r ← expect "]" r;
  '(g2, r) ← action_group (spaces r);
  r ← expect "|" (spaces r);
  '(g3, r) ← digits1 (spaces r);
  r ← expect "," r;
  r ← expect "(" (spaces r);
  g4 ← match_items_tail r;
  Some (g1, g2, g3, g4).

(** [[token.strip() for token in items_blob.split(",") if token.strip()]] *)
Definition items_tokens_of (items_blob : str) : list str :=
  map strip (filter (fun token => strip token ≠ []) (split "," items_blob)).

(** The body of [for idx in range(0, len(items_tokens), 2)]. *)
Fixpoint parse_items_loop (items_tokens : list str) (idxs : list nat)
    (items : list (Z * Z)) : result (list (Z * Z)) :=
  match idxs with
  | [] => Ok items
  | idx :: rest =>
      let* tok := getitem items_tokens idx in
      let* item_type_id := int tok in
      let* tok' := getitem items_tokens (idx + 1) in
      let* amount := int tok' in
      parse_items_loop items_tokens rest (items ++ [(item_type_id, amount)])
  end.

Definition parse_inventory_line (line : str) (line_no : option nat)
    : result (option InventoryEvent) :=
  let text := strip line in
  if bool_decide (text = []) then Ok None else
  match inventory_line_match text with
  | None => Ok None
  | Some (g1, g2, g3, g4) =>
      let* header :=
        except_ValueError
          (let* timestamp := int g1 in
           let action := g2 in
           let* player_id := int g3 in
           Ok (Some (timestamp, action, player_id)))
          (Ok None) in
      match header with
      | None => Ok None
      | Some (timestamp, action, player_id) =>
          let items_tokens := items_tokens_of g4 in
          if negb (Nat.eqb (length items_tokens mod 2) 0) then Ok None else
          except_ValueError
            (let* items := parse_items_loop items_tokens
                              (range_step2 (length items_tokens)) [] in
             Ok (Some (mkInventoryEvent timestamp player_id action items line_no text)))
            (Ok None)
      end
  end.

Definition _MONEY_ALLOWED_ACTIONS : list str := [MONEY_ADD; MONEY_REMOVE].

Definition parse_money_line (line : str) (line_no : option nat)
    : result (option MoneyEvent) :=
  let text := strip line in
  if bool_decide (text = []) then Ok None else
  match splitn "|" text 2 with
  | [timestamp_raw; player_raw; payload] =>
      match splitn "," payload 2 with
      | [action; amount_raw; reason] =>
          let action := strip action in
          if negb (bool_decide (action ∈ _MONEY_ALLOWED_ACTIONS)) then Ok None else
          except_ValueError
            (let* timestamp := int timestamp_raw in
             let* player_id := int player_raw in
             let* amount := int amount_raw in
             Ok (Some (mkMoneyEvent timestamp player_id action amount
                         (strip reason) line_no text)))
            (Ok None)
      | _ => Ok None
      end
  | _ => Ok None
  end.

(** [iter_inventory_events]: the events a full pass over the lines of the
    file yields, [line_no] being the number [enumerate(handle, 1)] gives the
    first of them. *)
Fixpoint iter_inventory_events_from (line_no : nat) (lines : list str)
    : result (list InventoryEvent) :=
  match lines with
  | [] => Ok []
  | line :: rest =>
      let* event := parse_inventory_line line (Some line_no) in
      let* tail := iter_inventory_events_from (S line_no) rest in
      Ok (match event with Some e => e :: tail | None => tail end)
  end.

Definition iter_inventory_events (lines : list str) : result (list InventoryEvent) :=
  iter_inventory_events_from 1 lines.

Fixpoint iter_money_events_from (line_no : nat) (lines : list str)
    : result (list MoneyEvent) :=
  match lines with
  | [] => Ok []
  | line :: rest =>
      let* event := parse_money_line line (Some line_no) in
      let* tail := iter_money_events_from (S line_no) rest in
      Ok (match event with Some e => e :: tail | None => tail end)
  end.

Definition iter_money_events (lines : list str) : result (list MoneyEvent) :=
  iter_money_events_from 1 lines.

End Parsers.

(** ** src/state.py *)

Module State.

Import Parsers.

Record Player : Type := mkPlayer {
  player_id : Z;
  name : str;
  level : option Z;
  money : Z;
  inventory : gmap Z Z;
  first_event_ts : option Z;
  last_event_ts : option Z
}.

(** [Player.__init__]; [name or "unknown"] replaces [None] and the empty
    string. *)
Definition Player_init (player_id : Z) (name : option str) (level : option Z) : Player :=
  {| player_id := player_id;
     name := match name with
             | Some (c :: n) => c :: n
             | _ => lit "unknown"
             end;
     level := level;
     money := 0;
     inventory := ∅;
     first_event_ts := None;
     last_event_ts := None |}.

Definition update_activity (self : Player) (timestamp : Z) : Player :=
  {| player_id := player_id self;
     name := name self;
     level := level self;
     money := money self;
     inventory := inventory self;
     first_event_ts := match first_event_ts self with
                       | None => Some timestamp
                       | Some t => Some t
                       end;
     last_event_ts := Some timestamp |}.

Definition set_money (self : Player) (m : Z) : Player :=
  {| player_id := player_id self; name := name self; level := level self;
     money := m; inventory := inventory self;
     first_event_ts := first_event_ts self; last_event_ts := last_event_ts self |}.

Definition set_inventory (self : Player) (inv : gmap Z Z) : Player :=
  {| player_id := player_id self; name := name self; level := level self;
     money := money self; inventory := inv;
     first_event_ts := first_event_ts self; last_event_ts := last_event_ts self |}.

Definition apply_money (self : Player) (action : str) (amount timestamp : Z) : Player :=
  let self := update_activity self timestamp in
  if bool_decide (action = MONEY_ADD) then set_money self (money self + amount)
  else if bool_decide (action = MONEY_REMOVE) then set_money self (money self - amount)
  else self.

(** A change recorded for one item: [(delta, previous, updated)]. *)
Definition change : Type := Z * Z * Z.

(** [changes[k] = v] on an insertion-ordered dict: a key already present
    keeps its position and takes the new value. *)
Fixpoint dict_set (d : list (Z * change)) (k : Z) (v : change) : list (Z * change) :=
  match d with
  | [] => [(k, v)]
  | (k', v') :: r => if k' =? k then (k', v) :: r else (k', v') :: dict_set r k v
  end.

(** The [for item_type_id, amount in items] loop of [apply_inventory], on
    the player's inventory and on [changes]. *)
Fixpoint apply_inventory_loop (multiplier : Z) (items : list (Z * Z))
    (inventory : gmap Z Z) (changes : list (Z * change))
    : gmap Z Z * list (Z * change) :=
  match items with
  | [] => (inventory, changes)
  | (item_type_id, amount) :: rest =>
      let delta := multiplier * amount in
      let previous := getd inventory item_type_id in
      let updated := previous + delta in
      apply_inventory_loop multiplier rest
        (<[item_type_id := updated]> inventory)
        (dict_set changes item_type_id (delta, previous, updated))
  end.

(** [Player.apply_inventory]: the player after the call and the returned
    [changes]. *)
Definition apply_inventory (self : Player) (action : str) (items : list (Z * Z))
    (timestamp : Z) : Player * list (Z * change) :=
  let self := update_activity self timestamp in
  let multiplier := if bool_decide (action = ITEM_ADD) then 1 else -1 in
  let '(inv, changes) := apply_inventory_loop multiplier items (inventory self) [] in
  (set_inventory self inv, changes).

Definition get_item_count (self : Player) (item_type_id : Z) : Z :=
  getd (inventory self) item_type_id.

(** [PlayerRegistry]: [_players]. *)
Abbreviation PlayerRegistry := (gmap Z Player).

(** [PlayerRegistry.get]: the registry after the call and the player. *)
Definition registry_get (self : gmap Z Player) (pid : Z) : gmap Z Player * Player :=
  match self !! pid with
  | Some p => (self, p)
  | None => let p := Player_init pid None None in (<[pid := p]> self, p)
  end.

Record ItemStatistics : Type := mkItemStatistics {
  totals : gmap Z Z;
  owner_counts : gmap Z Z;
  mentions : gmap Z Z;
  _first_seen_ts : gmap Z Z;
  _first_seen_order : list (Z * Z)
}.

Definition ItemStatistics_init : ItemStatistics :=
  {| totals := ∅; owner_counts := ∅; mentions := ∅;
     _first_seen_ts := ∅; _first_seen_order := [] |}.

Definition register_appearance (self : ItemStatistics) (item_type_id timestamp : Z)
    : ItemStatistics :=
  if bool_decide (is_Some (_first_seen_ts self !! item_type_id)) then self
  else {| totals := totals self;
          owner_counts := owner_counts self;
          mentions := mentions self;
          _first_seen_ts := <[item_type_id := timestamp]> (_first_seen_ts self);
          _first_seen_order := _first_seen_order self ++ [(timestamp, item_type_id)] |}.

Definition record_delta (self : ItemStatistics) (item_type_id delta : Z) : ItemStatistics :=
  {| totals := <[item_type_id := getd (totals self) item_type_id + delta]> (totals self);
     owner_counts := owner_counts self;
     mentions := mentions self;
     _first_seen_ts := _first_seen_ts self;
     _first_seen_order := _first_seen_order self |}.

Definition record_mention (self : ItemStatistics) (item_type_id : Z) : ItemStatistics :=
  {| totals := totals self;
     owner_counts := owner_counts self;
     mentions := <[item_type_id := getd (mentions self) item_type_id + 1]> (mentions self);
     _first_seen_ts := _first_seen_ts self;
     _first_seen_order := _first_seen_order self |}.

Definition set_owner_counts (self : ItemStatistics) (oc : gmap Z Z) : ItemStatistics :=
  {| totals := totals self; owner_counts := oc; mentions := mentions self;
     _first_seen_ts := _first_seen_ts self;
     _first_seen_order := _first_seen_order self |}.

Definition update_owner_count (self : ItemStatistics) (item_type_id previous updated : Z)
    : ItemStatistics :=
  if (previous <=? 0) && (0 <? updated) then
    set_owner_counts self
      (<[item_type_id := getd (owner_counts self) item_type_id + 1]> (owner_counts self))
  else if (0 <? previous) && (updated <=? 0) then
    let oc := <[item_type_id := getd (owner_counts self) item_type_id - 1]>
                (owner_counts self) in
    if getd oc item_type_id <? 0 then set_owner_counts self (<[item_type_id := 0]> oc)
    else set_owner_counts self oc
  else self.

Definition first_items (self : ItemStatistics) (limit : nat) : list (Z * Z) :=
  firstn limit (_first_seen_order self).

Record GameState : Type := mkGameState {
  players : gmap Z Player;
  item_stats : ItemStatistics
}.

(** [GameState.__init__]: [item_stats or ItemStatistics()]. *)
Definition GameState_init (player_registry : gmap Z Player)
    (item_stats : option ItemStatistics) : GameState :=
  {| players := player_registry;
     item_stats := match item_stats with
                   | Some s => s
                   | None => ItemStatistics_init
                   end |}.

(** The body of [for item_type_id, change in changes.items()]. *)
Definition forward_change (timestamp : Z) (stats : ItemStatistics)
    (entry : Z * change) : ItemStatistics :=
  let '(item_type_id, (delta, previous, updated)) := entry in
  let stats := register_appearance stats item_type_id timestamp in
  let stats := record_mention stats item_type_id in
  let stats := record_delta stats item_type_id delta in
  update_owner_count stats item_type_id previous updated.

(** [GameState.apply_inventory_event]; the player object held by the
    registry is the one mutated, so the registry sees the update. *)
Definition apply_inventory_event (self : GameState) (event : InventoryEvent) : GameState :=
  let '(registry, player) := registry_get (players self) (inv_player_id event) in
  let '(player, changes) :=
    apply_inventory player (inv_action event) (inv_items event) (inv_timestamp event) in
  {| players := <[inv_player_id event := player]> registry;
     item_stats := fold_left (forward_change (inv_timestamp event)) changes (item_stats self) |}.

Definition apply_money_event (self : GameState) (event : MoneyEvent) : GameState :=
  let '(registry, player) := registry_get (players self) (mon_player_id event) in
  let player := apply_money player (mon_action event) (mon_amount event) (mon_timestamp event) in
  {| players := <[mon_player_id event := player]> registry;
     item_stats := item_stats self |}.

End State.

(** ** The standard library's [heapq], on a Python list *)

Module Heapq.

Section Heap.

Context {A : Type} (lt : A -> A -> bool).

(** [_siftdown(heap, startpos, pos)]: [newitem] is [heap[pos]] on entry; the
    fuel bounds the iterations of [while pos > startpos], each of which
    moves [pos] to its parent. *)
Fixpoint siftdown_loop (fuel : nat) (heap : list A) (startpos pos : nat)
    (newitem : A) : list A :=
  match fuel with
  | O => <[pos := newitem]> heap
  | S fuel' =>
      if (startpos <? pos)%nat then
        let parentpos := Nat.div2 (pos - 1) in
        match heap !! parentpos with
        | Some parent =>
            if lt newitem parent
            then siftdown_loop fuel' (<[pos := parent]> heap) startpos parentpos newitem
            else <[pos := newitem]> heap
        | None => heap
        end
      else <[pos := newitem]> heap
  end.

Definition _siftdown (heap : list A) (startpos pos : nat) : list A :=
  match heap !! pos with
  | Some newitem => siftdown_loop (S pos) heap startpos pos newitem
  | None => heap
  end.

(** [heappush(heap, item)] *)
Definition heappush (heap : list A) (item : A) : list A :=
  let heap := heap ++ [item] in
  _siftdown heap 0 (length heap - 1).

(** The [while childpos < endpos] loop of [_siftup]; it returns the list and
    the position of the leaf left empty. *)
Fixpoint siftup_loop (fuel : nat) (heap : list A) (endpos pos : nat) : list A * nat :=
  match fuel with
  | O => (heap, pos)
  | S fuel' =>
      let childpos := (2 * pos + 1)%nat in
      if (childpos <? endpos)%nat then
        let rightpos := (childpos + 1)%nat in
        let childpos :=
          match heap !! childpos, heap !! rightpos with
          | Some l, Some r =>
              if (rightpos <? endpos)%nat && negb (lt l r) then rightpos else childpos
          | _, _ => childpos
          end in
        match heap !! childpos with
        | Some child => siftup_loop fuel' (<[pos := child]> heap) endpos childpos
        | None => (heap, pos)
        end
      else (heap, pos)
  end.

Definition _siftup (heap : list A) (pos : nat) : list A :=
  let endpos := length heap in
  let startpos := pos in
  match heap !! pos with
  | Some newitem =>
      let '(heap, pos) := siftup_loop endpos heap endpos pos in
      let heap := <[pos := newitem]> heap in
      _siftdown heap startpos pos
  | None => heap
  end.

(** [heappop(heap)]: the smallest item and the list after the call; [None]
    stands for the [IndexError] of an empty heap. *)
Definition heappop (heap : list A) : option (A * list A) :=
  match rev heap with
  | [] => None
  | lastelt :: rest =>
      let heap := rev rest in
      match heap with
      | [] => Some (lastelt, heap)
      | returnitem :: _ =>
          let heap := <[0%nat := lastelt]> heap in
          Some (returnitem, _siftup heap 0)
      end
  end.

End Heap.

End Heapq.

(** ** src/combiner.py *)

Module Combiner.

Import Parsers Heapq.

(** The last component of a heap entry is an event of either log. *)
Inductive event : Type :=
| InvEv (e : InventoryEvent)
| MonEv (e : MoneyEvent).

(** A heap entry [(timestamp, priority, order, source, event)]. *)
Record entry : Type := mkEntry {
  e_timestamp : Z;
  e_priority : Z;
  e_order : Z;
  e_source : str;
  e_event : event
}.

Definition INVENTORY : str := lit "inventory".
Definition MONEY : str := lit "money".

(** [a < b] on heap entries.  Tuples compare on the first component in
    which they differ; the entries of one heap always differ in their
    priority (lemma [heap_priorities_differ]), so the comparison is decided
    by the first two components and never reaches the source or the event. *)
Definition entry_lt (a b : entry) : bool :=
  if negb (e_timestamp a =? e_timestamp b) then e_timestamp a <? e_timestamp b
  else if negb (e_priority a =? e_priority b) then e_priority a <? e_priority b
  else if negb (e_order a =? e_order b) then e_order a <? e_order b
  else false.

(** [next(it)] under [try ... except StopIteration: ... = None] *)
Definition next {A} (it : list A) : option A * list A :=
  match it with
  | [] => (None, [])
  | x :: r => (Some x, r)
  end.

(** The attribute reads of the two formatting functions fail on an event of
    the other log. *)
Definition as_inventory (ev : event) : result InventoryEvent :=
  match ev with
  | InvEv e => Ok e
  | MonEv _ => Raise AttributeError
  end.

Definition as_money (ev : event) : result MoneyEvent :=
  match ev with
  | MonEv e => Ok e
  | InvEv _ => Raise AttributeError
  end.

Record merge_state : Type := mkMergeState {
  heap : list entry;
  inventory_iter : list InventoryEvent;
  money_iter : list MoneyEvent;
  inventory_order : Z;
  money_order : Z;
  inventory_count : Z;
  money_count : Z;
  (** the lines written to the output file, in order *)
  handle : list str;
  (** the entries popped so far, in order: the trace of the loop *)
  emitted : list entry
}.

Section Merge.

(** The text of an output line.  [_format_timestamp] relies on [datetime]
    and is left abstract: the two functions stand for calls that return, the
    range errors of [datetime.utcfromtimestamp] being outside the model. *)
Variable format_inventory_event : InventoryEvent -> str.
Variable format_money_event : MoneyEvent -> str.

(** Lines 67 to 88: the heap seeded with the first event of each log. *)
Definition seed (inventory_iter : list InventoryEvent) (money_iter : list MoneyEvent)
    : merge_state :=
  let heap := [] in
  let inventory_order := 0 in
  let money_order := 0 in
  let '(first_inv, inventory_iter) := next inventory_iter in
  let '(heap, inventory_order) :=
    match first_inv with
    | Some first_inv =>
        (heappush entry_lt heap
           (mkEntry (inv_timestamp first_inv) 0 inventory_order INVENTORY (InvEv first_inv)),
         inventory_order + 1)
    | None => (heap, inventory_order)
    end in
  let '(first_money, money_iter) := next money_iter in
  let '(heap, money_order) :=
    match first_money with
    | Some first_money =>
        (heappush entry_lt heap
           (mkEntry (mon_timestamp first_money) 1 money_order MONEY (MonEv first_money)),
         money_order + 1)
    | None => (heap, money_order)
    end in
  {| heap := heap; inventory_iter := inventory_iter; money_iter := money_iter;
     inventory_order := inventory_order; money_order := money_order;
     inventory_count := 0; money_count := 0; handle := []; emitted := [] |}.

(** One iteration of [while heap:] (lines 91 to 133). *)
Definition loop_body (st : merge_state) : result merge_state :=
  match heappop entry_lt (heap st) with
  | None => Raise IndexError
  | Some (top, heap) =>
      let source := e_source top in
      let event := e_event top in
      let* written :=
        if bool_decide (source = INVENTORY) then
          let* e := as_inventory event in
          Ok (format_inventory_event e, inventory_count st + 1, money_count st)
        else
          let* e := as_money event in
          Ok (format_money_event e, inventory_count st, money_count st + 1) in
      let '(line, inventory_count, money_count) := written in
      let handle := handle st ++ [line] in
      let emitted := emitted st ++ [top] in
      if bool_decide (source = INVENTORY) then
        let '(next_event, inventory_iter) := next (inventory_iter st) in
        match next_event with
        | Some next_event =>
            Ok {| heap := heappush entry_lt heap
                            (mkEntry (inv_timestamp next_event) 0 (inventory_order st)
                               INVENTORY (InvEv next_event));
                  inventory_iter := inventory_iter; money_iter := money_iter st;
                  inventory_order := inventory_order st + 1;
                  money_order := money_order st;
                  inventory_count := inventory_count; money_count := money_count;
                  handle := handle; emitted := emitted |}
        | None =>
            Ok {| heap := heap;
                  inventory_iter := inventory_iter; money_iter := money_iter st;
                  inventory_order := inventory_order st;
                  money_order := money_order st;
                  inventory_count := inventory_count; money_count := money_count;
                  handle := handle; emitted := emitted |}
        end
      else
        let '(next_event, money_iter) := next (money_iter st) in
        match next_event with
        | Some next_event =>
            Ok {| heap := heappush entry_lt heap
                            (mkEntry (mon_timestamp next_event) 1 (money_order st)
                               MONEY (MonEv next_event));
                  inventory_iter := inventory_iter st; money_iter := money_iter;
                  inventory_order := inventory_order st;
                  money_order := money_order st + 1;
                  inventory_count := inventory_count; money_count := money_count;
                  handle := handle; emitted := emitted |}
        | None =>
            Ok {| heap := heap;
                  inventory_iter := inventory_iter st; money_iter := money_iter;
                  inventory_order := inventory_order st;
                  money_order := money_order st;
                  inventory_count := inventory_count; money_count := money_count;
                  handle := handle; emitted := emitted |}
        end
  end.

(** [while heap:], with a bound on the number of iterations; [None] tells
    that the bound was reached with entries still in the heap. *)
Fixpoint while_heap (fuel : nat) (st : merge_state) : result (option merge_state) :=
  match heap st with
  | [] => Ok (Some st)
  | _ :: _ =>
      match fuel with
      | O => Ok None
      | S fuel' => let* st' := loop_body st in while_heap fuel' st'
      end
  end.

(** The merge of two event streams: every event takes one iteration. *)
Definition merge_events (inventory_iter : list InventoryEvent)
    (money_iter : list MoneyEvent) : result (option merge_state) :=
  while_heap (length inventory_iter + length money_iter) (seed inventory_iter money_iter).


End Merge.

End Combiner.

(** ** Functions used to state the properties *)

Module Props.

Import Parsers State Combiner.

(** Applying an event of either log, and a sequence of them. *)
Definition apply_event (gs : GameState) (ev : event) : GameState :=
  match ev with
  | InvEv e => apply_inventory_event gs e
  | MonEv e => apply_money_event gs e
  end.

Definition apply_events (gs : GameState) (evs : list event) : GameState :=
  fold_left apply_event evs gs.

(** [multiplier] of [Player.apply_inventory]. *)
Definition multiplier (action : str) : Z :=
  if bool_decide (action = ITEM_ADD) then 1 else -1.

(** The amounts an item list gives for item [t], summed. *)
Fixpoint sum_amounts (t : Z) (items : list (Z * Z)) : Z :=
  match items with
  | [] => 0
  | (id, amount) :: rest => (if id =? t then amount else 0) + sum_amounts t rest
  end.

(** The amount of the last pair of an item list that names item [t]. *)
Fixpoint last_amount (t : Z) (items : list (Z * Z)) : option Z :=
  match items with
  | [] => None
  | (id, amount) :: rest =>
      match last_amount t rest with
      | Some a => Some a
      | None => if id =? t then Some amount else None
      end
  end.

(** The signed quantity of item [t] over a sequence of events: every pair of
    every inventory event counts, positively for [ITEM_ADD]. *)
Fixpoint net_quantity (t : Z) (evs : list event) : Z :=
  match evs with
  | [] => 0
  | InvEv e :: rest =>
      multiplier (inv_action e) * sum_amounts t (inv_items e) + net_quantity t rest
  | MonEv _ :: rest => net_quantity t rest
  end.

(** [changes[k]] *)
Fixpoint dict_get (d : list (Z * change)) (k : Z) : option change :=
  match d with
  | [] => None
  | (k', v) :: r => if k' =? k then Some v else dict_get r k
  end.

(** The owner count after one transition [(previous, updated)], as a
    function of the count before. *)
Definition owner_step (count previous updated : Z) : Z :=
  if (previous <=? 0) && (0 <? updated) then count + 1
  else if (0 <? previous) && (updated <=? 0) then Z.max 0 (count - 1)
  else count.

(** The calls [(item_type_id, timestamp)] to [register_appearance] that a
    sequence of events stands for: one per pair of every inventory event, in
    processing order. *)
Fixpoint appearances (evs : list event) : list (Z * Z) :=
  match evs with
  | [] => []
  | InvEv e :: rest =>
      map (fun p => (fst p, inv_timestamp e)) (inv_items e) ++ appearances rest
  | MonEv _ :: rest => appearances rest
  end.

(** The first call of each item in a sequence of calls, as the
    [(timestamp, item_type_id)] it records; [seen] holds the items recorded
    before. *)
Fixpoint first_occurrences (seen : gset Z) (calls : list (Z * Z)) : list (Z * Z) :=
  match calls with
  | [] => []
  | (id, ts) :: rest =>
      if bool_decide (id ∈ seen) then first_occurrences seen rest
      else (ts, id) :: first_occurrences ({[id]} ∪ seen) rest
  end.

(** A sequence of calls to [register_appearance]. *)
Definition register_all (s : ItemStatistics) (calls : list (Z * Z)) : ItemStatistics :=
  fold_left (fun s c => register_appearance s (fst c) (snd c)) calls s.

(** The count of item [t] that the registry holds for player [pid]; a
    player the registry has not met yet holds nothing. *)
Definition player_count (gs : GameState) (pid t : Z) : Z :=
  match players gs !! pid with
  | Some p => get_item_count p t
  | None => 0
  end.

(** What the statistics say about one item: total, owners, mentions. *)
Definition view (s : ItemStatistics) (t : Z) : Z * Z * Z :=
  (getd (totals s) t, getd (owner_counts s) t, getd (mentions s) t).

(** The events whose item lists name no item twice. *)
Definition distinct_items (ev : event) : Prop :=
  match ev with
  | InvEv e => NoDup (map fst (inv_items e))
  | MonEv _ => True
  end.

(** The keys of [changes] after the items [ids] have been stored in turn,
    [ks] being the keys before. *)
Fixpoint keys_after (ks : list Z) (ids : list Z) : list Z :=
  match ids with
  | [] => ks
  | id :: rest => keys_after (if bool_decide (id ∈ ks) then ks else ks ++ [id]) rest
  end.

(** The calls that registering the items [ids] at time [ts] makes. *)
Definition at_time (ts : Z) (ids : list Z) : list (Z * Z) :=
  map (fun id => (id, ts)) ids.

(** *** The format of an inventory line, read declaratively *)

Definition all_digits (s : str) : Prop := s ≠ [] /\ forallb is_digit s = true.

Definition all_spaces (s : str) : Prop := forallb is_space s = true.

Definition newline : ascii := "010"%char.

(** [text] is made of the four groups [g1] to [g4] laid out as
    [_INVENTORY_LINE_RE] asks: a bracketed run of digits, one of the two
    action words, a bar, a run of digits, a comma, and a parenthesised
    remainder free of newlines, with optional white space where the pattern
    has [\s*]. *)
Definition line_format (text g1 g2 g3 g4 : str) : Prop :=
  exists w1 w2 w3 w4 w5,
    text = "["%char :: g1 ++ "]"%char :: w1 ++ g2 ++ w2 ++ "|"%char :: w3 ++ g3
           ++ ","%char :: w4 ++ "("%char :: g4 ++ ")"%char :: w5 /\
    all_digits g1 /\ all_digits g3 /\
    (g2 = ITEM_ADD \/ g2 = ITEM_REMOVE) /\
    all_spaces w1 /\ all_spaces w2 /\ all_spaces w3 /\ all_spaces w4 /\ all_spaces w5 /\
    newline ∉ g4.

(** The text does not begin with a character of the class [p]. *)
Definition starts_outside (p : ascii -> bool) (s : str) : Prop :=
  match s with
  | c :: _ => p c = false
  | [] => True
  end.

(** The values of a list of tokens, when [int] accepts them all. *)
Fixpoint int_all (tokens : list str) : option (list Z) :=
  match tokens with
  | [] => Some []
  | tok :: rest =>
      match int tok with
      | Ok v => cons v <$> int_all rest
      | Raise _ => None
      end
  end.

(** Integers taken two by two. *)
Fixpoint pair_up (vals : list Z) : list (Z * Z) :=
  match vals with
  | a :: b :: rest => (a, b) :: pair_up rest
  | _ => []
  end.




(** What [parse_inventory_line] returns, case by case. *)
Definition parse_outcome (text : str) (line_no : option nat) : option InventoryEvent :=
  match inventory_line_match text with
  | None => None
  | Some (g1, g2, g3, g4) =>
      match int g1, int g3 with
      | Ok timestamp, Ok player_id =>
          if Nat.even (length (items_tokens_of g4)) then
            match int_all (items_tokens_of g4) with
            | Some vals =>
                Some (mkInventoryEvent timestamp player_id g2 (pair_up vals) line_no text)
            | None => None
            end
          else None
      | _, _ => None
      end
  end.

(** *** The merge, read as the textbook two-way merge *)

Definition inv_entry (order : Z) (e : InventoryEvent) : entry :=
  mkEntry (inv_timestamp e) 0 order INVENTORY (InvEv e).

Definition mon_entry (order : Z) (e : MoneyEvent) : entry :=
  mkEntry (mon_timestamp e) 1 order MONEY (MonEv e).

(** The two-way merge of the streams: the inventory head goes first unless
    the money head is strictly earlier.  [io] and [mo] are the arrival
    numbers of the two heads. *)
Fixpoint two_way_merge (io : Z) (inv : list InventoryEvent)
    : Z -> list MoneyEvent -> list entry :=
  fix inner (mo : Z) (mon : list MoneyEvent) : list entry :=
    match inv, mon with
    | [], [] => []
    | i :: inv', [] => inv_entry io i :: two_way_merge (io + 1) inv' mo []
    | [], m :: mon' => mon_entry mo m :: inner (mo + 1) mon'
    | i :: inv', m :: mon' =>
        if inv_timestamp i <=? mon_timestamp m
        then inv_entry io i :: two_way_merge (io + 1) inv' mo mon
        else mon_entry mo m :: inner (mo + 1) mon'
    end.

(** One step of it: the entry that goes out and what is left. *)
Definition merge_step (io : Z) (inv : list InventoryEvent) (mo : Z) (mon : list MoneyEvent)
    : option (entry * (Z * list InventoryEvent * Z * list MoneyEvent)) :=
  match inv, mon with
  | [], [] => None
  | i :: inv', [] => Some (inv_entry io i, (io + 1, inv', mo, []))
  | [], m :: mon' => Some (mon_entry mo m, (io, [], mo + 1, mon'))
  | i :: inv', m :: mon' =>
      if inv_timestamp i <=? mon_timestamp m
      then Some (inv_entry io i, (io + 1, inv', mo, mon))
      else Some (mon_entry mo m, (io, inv, mo + 1, mon'))
  end.

(** The heap that holds the heads of the two streams. *)
Definition head_entry {A} (mk : Z -> A -> entry) (order : Z) (l : list A) : option entry :=
  match l with
  | [] => None
  | x :: _ => Some (mk order x)
  end.

Definition pending_heap (i m : option entry) : list entry :=
  match i, m with
  | None, None => []
  | Some a, None => [a]
  | None, Some b => [b]
  | Some a, Some b => if entry_lt a b then [a; b] else [b; a]
  end.

Definition order_after {A} (order : Z) (l : list A) : Z :=
  match l with
  | [] => order
  | _ :: _ => order + 1
  end.

(** The state of the loop when the events still to emit are [inv] and
    [mon], their heads being the pending entries of the heap. *)
Definition holds_heads (st : merge_state) (io : Z) (inv : list InventoryEvent)
    (mo : Z) (mon : list MoneyEvent) : Prop :=
  heap st = pending_heap (head_entry inv_entry io inv) (head_entry mon_entry mo mon) /\
  inventory_iter st = tail inv /\
  money_iter st = tail mon /\
  inventory_order st = order_after io inv /\
  money_order st = order_after mo mon.

(** The states of the loop: [reaches st st'] when some number of
    iterations of [while heap:] leads from [st] to [st']. *)
Inductive reaches (fi : InventoryEvent -> str) (fm : MoneyEvent -> str)
    : merge_state -> merge_state -> Prop :=
| reaches_here st : reaches fi fm st st
| reaches_next st st' st'' :
    heap st ≠ [] -> loop_body fi fm st = Ok st' -> reaches fi fm st' st'' ->
    reaches fi fm st st''.

(** The number of entries of a heap that come from one source. *)
Definition count_source (source : str) (h : list entry) : nat :=
  length (filter (fun e => e_source e = source) h).

(** The line written for an entry. *)
Definition format_entry (fi : InventoryEvent -> str) (fm : MoneyEvent -> str)
    (e : entry) : str :=
  match e_event e with
  | InvEv i => fi i
  | MonEv m => fm m
  end.





End Props.

(** ** src/state.py and main.py: the rest of the ledger *)

Module Ledger.

Import Parsers State Combiner Props.

(** [l[:k]] and [l[-k:]] on a list, for any integer [k]: a negative stop
    counts from the end, and the start [-k] of [l[-k:]] is an offset from
    the front when [k] is negative and the front itself when [k] is zero. *)
Definition slice_to {A} (l : list A) (k : Z) : list A :=
  if k <? 0 then firstn (length l - Z.to_nat (- k)) l else firstn (Z.to_nat k) l.

Definition slice_last {A} (l : list A) (k : Z) : list A :=
  if 0 <? k then skipn (length l - Z.to_nat k) l else skipn (Z.to_nat (- k)) l.

(** [ItemStatistics.first_items] *)
Definition first_items (self : ItemStatistics) (limit : Z) : list (Z * Z) :=
  slice_to (_first_seen_order self) limit.

(** [ItemStatistics.last_items] *)
Definition last_items (self : ItemStatistics) (limit : Z) : list (Z * Z) :=
  match _first_seen_order self with
  | [] => []
  | _ :: _ => slice_last (_first_seen_order self) limit
  end.

(** The state-building part of [run_pipeline] (lines 41 to 47 of main.py):
    every inventory event, then every money event. *)
Definition run_pipeline_state (registry : gmap Z Player)
    (inventory_lines money_lines : list str) : result GameState :=
  let state := GameState_init registry None in
  let* inventory := iter_inventory_events inventory_lines in
  let state := fold_left apply_inventory_event inventory state in
  let* money := iter_money_events money_lines in
  Ok (fold_left apply_money_event money state).

(** *** Functions used to state the properties *)

Definition event_player (ev : event) : Z :=
  match ev with
  | InvEv e => inv_player_id e
  | MonEv e => mon_player_id e
  end.

Definition event_timestamp (ev : event) : Z :=
  match ev with
  | InvEv e => inv_timestamp e
  | MonEv e => mon_timestamp e
  end.

(** The events of a sequence that name player [pid]. *)
Definition events_of (pid : Z) (evs : list event) : list event :=
  filter (fun ev => event_player ev = pid) evs.

(** One event applied to the player it names. *)
Definition apply_to_player (p : Player) (ev : event) : Player :=
  match ev with
  | InvEv e => fst (apply_inventory p (inv_action e) (inv_items e) (inv_timestamp e))
  | MonEv e => apply_money p (mon_action e) (mon_amount e) (mon_timestamp e)
  end.

(** What a money event adds to the balance. *)
Definition money_delta (ev : event) : Z :=
  match ev with
  | MonEv e =>
      if bool_decide (mon_action e = MONEY_ADD) then mon_amount e
      else if bool_decide (mon_action e = MONEY_REMOVE) then - mon_amount e
      else 0
  | InvEv _ => 0
  end.

Definition sum_list (l : list Z) : Z := foldr Z.add 0 l.

(** What an inventory event adds to the count of item [t]. *)
Definition quantity_delta (t : Z) (ev : event) : Z :=
  match ev with
  | InvEv e => multiplier (inv_action e) * sum_amounts t (inv_items e)
  | MonEv _ => 0
  end.

(** The balance that the registry holds for player [pid]. *)
Definition player_money (gs : GameState) (pid : Z) : Z :=
  match players gs !! pid with
  | Some p => money p
  | None => 0
  end.

(** The inventory events that name item [t]. *)
Definition names_item (t : Z) (ev : event) : Prop :=
  match ev with
  | InvEv e => t ∈ map fst (inv_items e)
  | MonEv _ => False
  end.

#[global] Instance names_item_dec t ev : Decision (names_item t ev).
Proof. destruct ev; cbn; apply _. Defined.

(** The number of players of the registry who hold item [t]: those whose
    stored count of it is positive. *)
Definition holds (t : Z) (kv : Z * Player) : Prop := 0 < get_item_count (snd kv) t.

#[global] Instance holds_dec t kv : Decision (holds t kv).
Proof. unfold holds. apply _. Defined.

Definition holders (gs : GameState) (t : Z) : nat :=
  size (filter (holds t) (players gs)).

(** The quantity of item [t] in the game: the counts that the players of
    the registry store for it, added up. *)
Definition stock (gs : GameState) (t : Z) : Z :=
  map_fold (fun _ p acc => get_item_count p t + acc) 0 (players gs).

(** The events of each log among a sequence of events, in order. *)
Definition inventory_part (evs : list event) : list InventoryEvent :=
  omap (fun ev => match ev with InvEv e => Some e | MonEv _ => None end) evs.

Definition money_part (evs : list event) : list MoneyEvent :=
  omap (fun ev => match ev with MonEv e => Some e | InvEv _ => None end) evs.

End Ledger.

(** ** src/combiner.py: the lines of the combined log *)

Module Formatting.

Import Parsers Props.

(** ["%d" % n], and ["%s" % n] for an integer [n]: the decimal numeral of
    [n], with a leading minus sign when it is negative. *)
Definition decimal (n : Z) : str :=
  list_ascii_of_string (NilZero.string_of_int (Z.to_int n)).

(** [sep.join(parts)] *)
Fixpoint join (sep : str) (parts : list str) : str :=
  match parts with
  | [] => []
  | [part] => part
  | part :: rest => part ++ sep ++ join sep rest
  end.

Section Format.

(** [_format_timestamp] renders a date with [datetime]; its text is left
    open. *)
Variable _format_timestamp : Z -> str.

Definition format_inventory_event (event : InventoryEvent) : str :=
  let ts := _format_timestamp (inv_timestamp event) in
  let items :=
    map (fun '(item_type_id, amount) =>
           lit "(" ++ decimal item_type_id ++ lit ", " ++ decimal amount ++ lit ")")
        (inv_items event) in
  lit "[" ++ ts ++ lit "] " ++ decimal (inv_player_id event) ++ lit " | "
    ++ inv_action event ++ lit " " ++ join (lit " ") items.

Definition format_money_event (event : MoneyEvent) : str :=
  let ts := _format_timestamp (mon_timestamp event) in
  lit "[" ++ ts ++ lit "] " ++ decimal (mon_player_id event) ++ lit " | "
    ++ mon_action event ++ lit " | " ++ decimal (mon_amount event) ++ lit " | "
    ++ mon_reason event.

End Format.

End Formatting.

(** ** src/report.py: the rankings and the tables of the report *)

Module Report.

Import State Ledger Formatting.

(** The keys of the rankings are pairs of integers, compared as Python
    compares tuples. *)
Definition key_lt (a b : Z * Z) : bool :=
  (fst a <? fst b) || ((fst a =? fst b) && (snd a <? snd b)).

(** [sorted(l, key=key)]: the sort is stable, an element goes before the
    elements of the sorted rest whose key is not smaller than its own. *)
Fixpoint insort {A} (key : A -> Z * Z) (x : A) (l : list A) : list A :=
  match l with
  | [] => [x]
  | y :: l' => if key_lt (key y) (key x) then y :: insort key x l' else x :: y :: l'
  end.

Definition sorted {A} (key : A -> Z * Z) (l : list A) : list A :=
  foldr (insort key) [] l.

Definition _item_name (item_type_id : Z) (catalog : gmap Z str) : str :=
  match catalog !! item_type_id with
  | Some name => name
  | None => lit "unknown item " ++ decimal item_type_id
  end.

(** [_top_items_by_mentions], from the pairs that [mentions.items()]
    yields, in the order in which it yields them. *)
Definition top_items_of (items : list (Z * Z)) (catalog : gmap Z str) (limit : Z)
    : list (Z * str * Z) :=
  let ranked := sorted (fun pair => (- snd pair, fst pair)) items in
  map (fun '(item_type_id, count) => (item_type_id, _item_name item_type_id catalog, count))
      (slice_to ranked limit).

Definition _top_items_by_mentions (item_stats : ItemStatistics) (catalog : gmap Z str)
    (limit : Z) : list (Z * str * Z) :=
  top_items_of (map_to_list (mentions item_stats)) catalog limit.

Definition active (p : Player) : Prop := first_event_ts p <> None.

#[global] Instance active_dec p : Decision (active p).
Proof. unfold active. apply _. Defined.

Definition _top_players_by_money (players : list Player) (limit : Z) : list Player :=
  let active_players := filter active players in
  let ordered := sorted (fun p => (- money p, player_id p)) active_players in
  slice_to ordered limit.

(** The cells of a table: text, or an integer that [_to_text] prints. *)
Inductive cell : Type :=
| Text (s : str)
| Int (n : Z).

Definition _to_text (value : cell) : str :=
  match value with
  | Text s => s
  | Int n => decimal n
  end.

(** [len(s)] *)
Definition len {A} (s : list A) : Z := Z.of_nat (length s).

(** [s.ljust(width)] *)
Definition ljust (s : str) (width : Z) : str :=
  s ++ repeat " "%char (Z.to_nat (width - len s)).

(** [c * n] for a string [c] of one character *)
Definition times (c : ascii) (n : Z) : str := repeat c (Z.to_nat n).

(** The first pass of [_write_table] over one row, from column [idx] on:
    [widths[idx] = max(widths[idx], len(_to_text(cell)))]. *)
Fixpoint widen_row (widths : list Z) (idx : nat) (row : list cell) : result (list Z) :=
  match row with
  | [] => Ok widths
  | cell :: rest =>
      let* width := getitem widths idx in
      widen_row (<[idx := Z.max width (len (_to_text cell))]> widths) (S idx) rest
  end.

Fixpoint widen (widths : list Z) (rows : list (list cell)) : result (list Z) :=
  match rows with
  | [] => Ok widths
  | row :: rest =>
      let* widths := widen_row widths 0 row in
      widen widths rest
  end.

(** The parts of [_format_row], from column [idx] on. *)
Fixpoint format_parts (widths : list Z) (idx : nat) (row_values : list cell)
    : result (list str) :=
  match row_values with
  | [] => Ok []
  | cell :: rest =>
      let text := _to_text cell in
      let* width := getitem widths idx in
      let* parts := format_parts widths (S idx) rest in
      Ok (ljust text width :: parts)
  end.

Definition _format_row (widths : list Z) (padding : Z) (row_values : list cell)
    : result str :=
  let* parts := format_parts widths 0 row_values in
  Ok (join (times " " padding) parts).

Fixpoint write_rows (widths : list Z) (padding : Z) (rows : list (list cell))
    : result (list str) :=
  match rows with
  | [] => Ok []
  | row :: rest =>
      let* line := _format_row widths padding row in
      let* lines := write_rows widths padding rest in
      Ok (line :: lines)
  end.

(** [_write_table]: the lines written to the handle, each of them followed
    by a newline; the last one is empty. *)
Definition _write_table (headers : list cell) (rows : list (list cell)) (padding : Z)
    : result (list str) :=
  let widths := map (fun h => len (_to_text h)) headers in
  let* widths := widen widths rows in
  let* head := _format_row widths padding headers in
  let rule := times "-" (sum_list widths + padding * (len headers - 1)) in
  let* body := write_rows widths padding rows in
  Ok ([head; rule] ++ body ++ [[]]).

(** [PlayerRegistry.values]: the players of the registry, in the order of
    the dictionary. *)
Definition values (gs : GameState) : list Player := map snd (map_to_list (players gs)).

(** The players who hold the item, with their counts, ranked: the rows that
    a query of [interactive_loop] lists,
    [sorted(player_counts, key=...)[:10]]. *)
Definition holders_of (players : list Player) (item_type_id : Z) : list (Player * Z) :=
  let player_counts :=
    omap (fun player =>
            let count := get_item_count player item_type_id in
            if 0 <? count then Some (player, count) else None)
         players in
  slice_to (sorted (fun pair => (- snd pair, player_id (fst pair))) player_counts) 10.

Definition top_holders (game_state : GameState) (item_type_id : Z) : list (Player * Z) :=
  holders_of (values game_state) item_type_id.

(** [interactive_loop], from the lines of the input stream to the lines
    written to the output stream, each of them followed by a newline.  The
    texts of the messages are not ASCII: they are kept as the bytes that the
    source file holds for them. *)
Fixpoint interactive_loop (game_state : GameState) (catalog : gmap Z str)
    (instream : list str) : result (list str) :=
  match instream with
  | [] => Ok []
  | raw_line :: rest =>
      let line := strip raw_line in
      if bool_decide (line = []) then interactive_loop game_state catalog rest
      else
        let* parsed :=
          except_ValueError (let* value := int line in Ok (Some value)) (Ok None) in
        let written :=
          match parsed with
          | None => [lit "Некорректный item_type_id: " ++ line]
          | Some item_type_id =>
              let total_count := getd (totals (item_stats game_state)) item_type_id in
              let owners := getd (owner_counts (item_stats game_state)) item_type_id in
              let name := _item_name item_type_id catalog in
              [lit "Название предмета: " ++ name;
               lit "Общее количество в игре: " ++ decimal total_count;
               lit "Количество владельцев: " ++ decimal owners;
               lit "Топ 10 игроков по предмету:"]
              ++ map (fun '(player, count) => State.name player ++ lit ", " ++ decimal count)
                     (top_holders game_state item_type_id)
          end in
        let* more := interactive_loop game_state catalog rest in
        Ok (written ++ more)
  end.

(** *** Functions used to state the properties *)



Definition key_le (a b : Z * Z) : Prop := key_lt b a = false.

(** [x] may stand before [y] in a list sorted by [key]. *)
Definition ranks_before {A} (key : A -> Z * Z) (x y : A) : Prop := key_le (key x) (key y).

End Report.

(** ** Properties of [src/state.py] *)

Section StateProperties.

Import Parsers State Combiner Props.

Lemma getd_insert_eq (m : gmap Z Z) k v : getd (<[k := v]> m) k = v.
Proof. unfold getd. by rewrite lookup_insert_eq. Qed.

Lemma getd_insert_ne (m : gmap Z Z) k k' v : k ≠ k' -> getd (<[k := v]> m) k' = getd m k'.
Proof. intros H. unfold getd. by rewrite lookup_insert_ne. Qed.

Lemma getd_empty k : getd ∅ k = 0.
Proof. unfold getd. by rewrite lookup_empty. Qed.

(** *** The loop of [Player.apply_inventory] *)

Lemma dict_get_set_eq d k v : dict_get (dict_set d k v) k = Some v.
Proof.
  induction d as [|[k' v'] d IH]; simpl.
  - by rewrite Z.eqb_refl.
  - destruct (k' =? k) eqn:E; simpl; rewrite E; auto.
Qed.

Lemma dict_get_set_ne d k k' v : k ≠ k' -> dict_get (dict_set d k v) k' = dict_get d k'.
Proof.
  intros Hne. induction d as [|[k0 v0] d IH]; simpl.
  - destruct (k =? k') eqn:E; [lia | done].
  - destruct (k0 =? k) eqn:E; simpl.
    + destruct (k0 =? k') eqn:E'; [lia | done].
    + by rewrite IH.
Qed.

Lemma dict_get_None d k : dict_get d k = None <-> k ∉ map fst d.
Proof.
  induction d as [|[k' v'] d IH]; simpl.
  - split; [intros _; apply not_elem_of_nil | done].
  - rewrite not_elem_of_cons. destruct (k' =? k) eqn:E.
    + split; [done | intros [H _]; lia].
    + rewrite IH. split; [intros H; split; [lia | done] | tauto].
Qed.

Lemma dict_set_keys d k v :
  map fst (dict_set d k v) = if bool_decide (k ∈ map fst d) then map fst d else map fst d ++ [k].
Proof.
  induction d as [|[k' v'] d IH]; cbn [dict_set map fst].
  - rewrite bool_decide_eq_false_2; [done | apply not_elem_of_nil].
  - destruct (k' =? k) eqn:E; cbn [map fst].
    + rewrite bool_decide_eq_true_2; [done | apply elem_of_cons; left; lia].
    + rewrite IH. destruct (decide (k ∈ map fst d)) as [H | H].
      * rewrite !bool_decide_eq_true_2; [done | apply elem_of_cons; by right | done].
      * rewrite !bool_decide_eq_false_2; [done | | done].
        rewrite not_elem_of_cons. split; [lia | done].
Qed.

Lemma dict_set_NoDup d k v : NoDup (map fst d) -> NoDup (map fst (dict_set d k v)).
Proof.
  intros H. rewrite dict_set_keys. case_bool_decide as Hk; [done |].
  apply NoDup_app. split_and!; [done | | apply NoDup_singleton].
  intros x Hx Hx'. apply list_elem_of_singleton in Hx'. by subst.
Qed.

Lemma sum_amounts_absent t items : last_amount t items = None -> sum_amounts t items = 0.
Proof.
  induction items as [|[id am] items IH]; simpl; [done |].
  destruct (last_amount t items); [done |].
  destruct (id =? t); [done |]. intros _. rewrite IH; [lia | done].
Qed.

Lemma apply_inventory_loop_count m items : forall inv ch t,
  getd (fst (apply_inventory_loop m items inv ch)) t = getd inv t + m * sum_amounts t items.
Proof.
  induction items as [|[id am] items IH]; intros inv ch t; simpl.
  - lia.
  - rewrite IH. destruct (id =? t) eqn:E.
    + apply Z.eqb_eq in E. subst. rewrite getd_insert_eq. lia.
    + rewrite getd_insert_ne; [lia | intros ->; lia].
Qed.

Lemma apply_inventory_loop_NoDup m items : forall inv ch,
  NoDup (map fst ch) -> NoDup (map fst (snd (apply_inventory_loop m items inv ch))).
Proof.
  induction items as [|[id am] items IH]; intros inv ch H; simpl; [done |].
  apply IH. by apply dict_set_NoDup.
Qed.

Lemma apply_inventory_loop_changes m items : forall inv ch t,
  dict_get (snd (apply_inventory_loop m items inv ch)) t =
  match last_amount t items with
  | Some a =>
      let final := getd (fst (apply_inventory_loop m items inv ch)) t in
      Some (m * a, final - m * a, final)
  | None => dict_get ch t
  end.
Proof.
  induction items as [|[id am] items IH]; intros inv ch t; simpl; [done |].
  rewrite IH. destruct (last_amount t items) eqn:El; [done |].
  destruct (id =? t) eqn:E.
  - apply Z.eqb_eq in E. subst id. rewrite dict_get_set_eq.
    rewrite apply_inventory_loop_count, getd_insert_eq.
    rewrite (sum_amounts_absent _ _ El). do 2 f_equal; [f_equal |]; lia.
  - rewrite dict_get_set_ne; [done | intros ->; lia].
Qed.

End StateProperties.

(** *** The statistics forwarded by [GameState.apply_inventory_event] *)

Section ForwardedStatistics.

Import Parsers State Combiner Props.

Lemma owner_counts_register s k ts : owner_counts (register_appearance s k ts) = owner_counts s.
Proof. unfold register_appearance. by case_bool_decide. Qed.

Lemma totals_register s k ts : totals (register_appearance s k ts) = totals s.
Proof. unfold register_appearance. by case_bool_decide. Qed.

Lemma mentions_register s k ts : mentions (register_appearance s k ts) = mentions s.
Proof. unfold register_appearance. by case_bool_decide. Qed.

Lemma update_owner_count_at s k p u :
  getd (owner_counts (update_owner_count s k p u)) k = owner_step (getd (owner_counts s) k) p u.
Proof.
  unfold update_owner_count, owner_step.
  destruct ((p <=? 0) && (0 <? u)); [apply getd_insert_eq |].
  destruct ((0 <? p) && (u <=? 0)); [| done].
  rewrite getd_insert_eq.
  destruct (getd (owner_counts s) k - 1 <? 0) eqn:E; cbn [owner_counts set_owner_counts];
    rewrite getd_insert_eq; lia.
Qed.

Lemma update_owner_count_other s k t p u :
  k ≠ t -> getd (owner_counts (update_owner_count s k p u)) t = getd (owner_counts s) t.
Proof.
  intros Hne. unfold update_owner_count.
  destruct ((p <=? 0) && (0 <? u)); [by apply getd_insert_ne |].
  destruct ((0 <? p) && (u <=? 0)); [| done].
  destruct (_ <? 0); cbn [owner_counts set_owner_counts];
    rewrite ?getd_insert_ne by done; done.
Qed.

Lemma update_owner_count_fields s k p u :
  totals (update_owner_count s k p u) = totals s /\
  mentions (update_owner_count s k p u) = mentions s /\
  _first_seen_ts (update_owner_count s k p u) = _first_seen_ts s /\
  _first_seen_order (update_owner_count s k p u) = _first_seen_order s.
Proof.
  unfold update_owner_count.
  destruct ((p <=? 0) && (0 <? u)); [done |].
  destruct ((0 <? p) && (u <=? 0)); [| done].
  by destruct (_ <? 0).
Qed.

Lemma forward_change_owner_same ts s t (d p u : Z) :
  getd (owner_counts (forward_change ts s (t, (d, p, u)))) t =
  owner_step (getd (owner_counts s) t) p u.
Proof.
  unfold forward_change. rewrite update_owner_count_at.
  cbn [owner_counts record_delta record_mention].
  by rewrite owner_counts_register.
Qed.

Lemma forward_change_owner_other ts s k c t :
  k ≠ t -> getd (owner_counts (forward_change ts s (k, c))) t = getd (owner_counts s) t.
Proof.
  intros Hne. destruct c as [[d p] u]. unfold forward_change.
  rewrite update_owner_count_other by done.
  cbn [owner_counts record_delta record_mention].
  by rewrite owner_counts_register.
Qed.

Lemma forward_change_same ts s t (d p u : Z) :
  view (forward_change ts s (t, (d, p, u))) t =
  (getd (totals s) t + d, owner_step (getd (owner_counts s) t) p u, getd (mentions s) t + 1).
Proof.
  unfold view. rewrite forward_change_owner_same. unfold forward_change.
  destruct (update_owner_count_fields
              (record_delta (record_mention (register_appearance s t ts) t) t d) t p u)
    as (-> & -> & _).
  cbn [totals mentions record_delta record_mention].
  by rewrite !getd_insert_eq, totals_register, mentions_register.
Qed.

Lemma forward_change_other ts s k c t :
  k ≠ t -> view (forward_change ts s (k, c)) t = view s t.
Proof.
  intros Hne. unfold view. rewrite forward_change_owner_other by done.
  destruct c as [[d p] u]. unfold forward_change.
  destruct (update_owner_count_fields
              (record_delta (record_mention (register_appearance s k ts) k) k d) k p u)
    as (-> & -> & _).
  cbn [totals mentions record_delta record_mention].
  by rewrite !getd_insert_ne, totals_register, mentions_register.
Qed.

Lemma view_eq_inv s s' t :
  view s t = view s' t ->
  getd (totals s) t = getd (totals s') t /\
  getd (owner_counts s) t = getd (owner_counts s') t /\
  getd (mentions s) t = getd (mentions s') t.
Proof. unfold view. intros H. by injection H. Qed.

Lemma forward_changes_view ts changes : forall s t,
  NoDup (map fst changes) ->
  view (fold_left (forward_change ts) changes s) t =
  match dict_get changes t with
  | Some (d, p, u) =>
      (getd (totals s) t + d, owner_step (getd (owner_counts s) t) p u, getd (mentions s) t + 1)
  | None => view s t
  end.
Proof.
  induction changes as [|[k c] changes IH]; intros s t Hnd; cbn [fold_left dict_get]; [done |].
  change (map fst ((k, c) :: changes)) with (k :: map fst changes) in Hnd.
  apply NoDup_cons in Hnd as [Hk Hnd]. rewrite IH by done.
  destruct (k =? t) eqn:E.
  - apply Z.eqb_eq in E. subst k.
    apply dict_get_None in Hk. rewrite Hk. destruct c as [[d p] u].
    apply forward_change_same.
  - assert (k ≠ t) as Hne by lia.
    destruct (view_eq_inv _ _ _ (forward_change_other ts s k c t Hne)) as (H1 & H2 & H3).
    destruct (dict_get changes t) as [[[d p] u]|].
    + by rewrite H1, H2, H3.
    + by apply forward_change_other.
Qed.

Lemma owner_step_nonneg c p u : 0 <= c -> 0 <= owner_step c p u.
Proof.
  intros H. unfold owner_step.
  destruct (_ && _); [lia |]. destruct (_ && _); lia.
Qed.

Lemma forward_changes_owner_nonneg ts changes : forall s,
  (forall t, 0 <= getd (owner_counts s) t) ->
  forall t, 0 <= getd (owner_counts (fold_left (forward_change ts) changes s)) t.
Proof.
  induction changes as [|[k [[d p] u]] changes IH]; intros s Hs; cbn [fold_left]; [done |].
  apply IH. intros t. destruct (decide (k = t)) as [-> | Hne].
  - rewrite forward_change_owner_same. by apply owner_step_nonneg.
  - rewrite forward_change_owner_other by done. apply Hs.
Qed.

End ForwardedStatistics.

(** *** One inventory event applied to the game state *)

Section InventoryEventEffect.

Import Parsers State Combiner Props.

Lemma registry_get_count (reg : gmap Z Player) pid t :
  get_item_count (snd (registry_get reg pid)) t =
  match reg !! pid with Some p => get_item_count p t | None => 0 end.
Proof.
  unfold registry_get. destruct (reg !! pid); [done |].
  cbn. unfold get_item_count, Player_init; cbn. apply getd_empty.
Qed.

Lemma apply_inventory_fst p action items ts :
  inventory (fst (apply_inventory p action items ts)) =
  fst (apply_inventory_loop (multiplier action) items (inventory p) []).
Proof.
  unfold apply_inventory, multiplier. cbn [inventory update_activity].
  by destruct (apply_inventory_loop _ items (inventory p) []).
Qed.

Lemma apply_inventory_snd p action items ts :
  snd (apply_inventory p action items ts) =
  snd (apply_inventory_loop (multiplier action) items (inventory p) []).
Proof.
  unfold apply_inventory, multiplier. cbn [inventory update_activity].
  by destruct (apply_inventory_loop _ items (inventory p) []).
Qed.

Lemma apply_inventory_event_players gs e :
  players (apply_inventory_event gs e) !! inv_player_id e =
  Some (fst (apply_inventory (snd (registry_get (players gs) (inv_player_id e)))
               (inv_action e) (inv_items e) (inv_timestamp e))).
Proof.
  unfold apply_inventory_event.
  destruct (registry_get (players gs) (inv_player_id e)) as [reg p]. cbn [snd].
  destruct (apply_inventory p _ _ _) as [p' ch]. cbn [players fst].
  apply lookup_insert_eq.
Qed.

Lemma apply_inventory_event_stats gs e :
  item_stats (apply_inventory_event gs e) =
  fold_left (forward_change (inv_timestamp e))
    (snd (apply_inventory (snd (registry_get (players gs) (inv_player_id e)))
            (inv_action e) (inv_items e) (inv_timestamp e)))
    (item_stats gs).
Proof.
  unfold apply_inventory_event.
  destruct (registry_get (players gs) (inv_player_id e)) as [reg p]. cbn [snd].
  by destruct (apply_inventory p _ _ _) as [p' ch].
Qed.

Lemma apply_inventory_count p action items ts t :
  get_item_count (fst (apply_inventory p action items ts)) t =
  get_item_count p t + multiplier action * sum_amounts t items.
Proof.
  unfold get_item_count. rewrite apply_inventory_fst. apply apply_inventory_loop_count.
Qed.

Lemma apply_inventory_changes p action items ts t :
  NoDup (map fst (snd (apply_inventory p action items ts))) /\
  dict_get (snd (apply_inventory p action items ts)) t =
  match last_amount t items with
  | Some a =>
      let final := get_item_count (fst (apply_inventory p action items ts)) t in
      Some (multiplier action * a, final - multiplier action * a, final)
  | None => None
  end.
Proof.
  rewrite apply_inventory_snd. split.
  - apply apply_inventory_loop_NoDup. constructor.
  - rewrite apply_inventory_loop_changes. unfold get_item_count.
    by rewrite apply_inventory_fst.
Qed.

Lemma apply_inventory_event_count gs e t :
  player_count (apply_inventory_event gs e) (inv_player_id e) t =
  player_count gs (inv_player_id e) t + multiplier (inv_action e) * sum_amounts t (inv_items e).
Proof.
  unfold player_count at 1. rewrite apply_inventory_event_players.
  rewrite apply_inventory_count, registry_get_count. done.
Qed.

(** The statistics of item [t] after one inventory event. *)
Lemma apply_inventory_event_view gs e t :
  view (item_stats (apply_inventory_event gs e)) t =
  match last_amount t (inv_items e) with
  | Some a =>
      let m := multiplier (inv_action e) in
      let after := player_count (apply_inventory_event gs e) (inv_player_id e) t in
      (getd (totals (item_stats gs)) t + m * a,
       owner_step (getd (owner_counts (item_stats gs)) t) (after - m * a) after,
       getd (mentions (item_stats gs)) t + 1)
  | None => view (item_stats gs) t
  end.
Proof.
  rewrite apply_inventory_event_stats.
  destruct (apply_inventory_changes (snd (registry_get (players gs) (inv_player_id e)))
              (inv_action e) (inv_items e) (inv_timestamp e) t) as [Hnd Hget].
  rewrite forward_changes_view by done. rewrite Hget.
  destruct (last_amount t (inv_items e)); [| done].
  cbn zeta. unfold player_count. by rewrite apply_inventory_event_players.
Qed.

Lemma apply_money_event_stats gs e : item_stats (apply_money_event gs e) = item_stats gs.
Proof.
  unfold apply_money_event. by destruct (registry_get (players gs) (mon_player_id e)).
Qed.

End InventoryEventEffect.

(** *** Claims on the aggregation engine *)

Section AggregationClaims.

Import Parsers State Combiner Props.

Lemma apply_events_owner_nonneg evs : forall gs,
  (forall t, 0 <= getd (owner_counts (item_stats gs)) t) ->
  forall t, 0 <= getd (owner_counts (item_stats (apply_events gs evs))) t.
Proof.
  unfold apply_events.
  induction evs as [|ev evs IH]; intros gs Hgs; cbn [fold_left]; [done |].
  apply IH. destruct ev as [e | e]; cbn [apply_event].
  - rewrite apply_inventory_event_stats. by apply forward_changes_owner_nonneg.
  - by rewrite apply_money_event_stats.
Qed.

(** C4. Starting from fresh statistics, whatever the registry and whatever
    the sequence of inventory and money events applied, in any order, the
    owner count of every item type is non-negative after every event: the
    statement holds for every sequence, hence for every prefix of one. *)
Theorem owner_counts_never_negative (registry : gmap Z Player) (evs : list event) (t : Z) :
  0 <= getd (owner_counts (item_stats (apply_events (GameState_init registry None) evs))) t.
Proof.
  apply apply_events_owner_nonneg. intros t'. cbn. by rewrite getd_empty.
Qed.

(** C10. When an inventory event names item [t] (once or several times)
    and [a] is the amount of its last pair for [t]: the player's stored
    count moves by the sum of all the pairs for [t]; [changes] has one entry
    per item and, for [t], the triple of the last pair only; the statistics
    get one mention for [t], the delta of the last pair, and the owner
    transition of the last pair. *)
Theorem duplicate_pairs_forward_last_change (gs : GameState) (e : InventoryEvent) (t a : Z) :
  last_amount t (inv_items e) = Some a ->
  let m := multiplier (inv_action e) in
  let gs' := apply_inventory_event gs e in
  let before := player_count gs (inv_player_id e) t in
  let after := player_count gs' (inv_player_id e) t in
  let changes :=
    snd (apply_inventory (snd (registry_get (players gs) (inv_player_id e)))
           (inv_action e) (inv_items e) (inv_timestamp e)) in
  after = before + m * sum_amounts t (inv_items e) /\
  NoDup (map fst changes) /\
  dict_get changes t = Some (m * a, after - m * a, after) /\
  getd (mentions (item_stats gs')) t = getd (mentions (item_stats gs)) t + 1 /\
  getd (totals (item_stats gs')) t = getd (totals (item_stats gs)) t + m * a /\
  getd (owner_counts (item_stats gs')) t =
    owner_step (getd (owner_counts (item_stats gs)) t) (after - m * a) after.
Proof.
  intros Hlast m gs' before after changes.
  pose proof (apply_inventory_event_view gs e t) as Hview.
  rewrite Hlast in Hview. cbn zeta in Hview. unfold view in Hview.
  destruct (apply_inventory_changes (snd (registry_get (players gs) (inv_player_id e)))
              (inv_action e) (inv_items e) (inv_timestamp e) t) as [Hnd Hget].
  rewrite Hlast in Hget. cbn zeta in Hget.
  split_and!.
  - apply apply_inventory_event_count.
  - exact Hnd.
  - subst changes after gs'. rewrite Hget. unfold player_count.
    by rewrite apply_inventory_event_players.
  - by injection Hview.
  - by injection Hview.
  - by injection Hview.
Qed.

(** The input of the example: player 7 gains item 5 twice in one event. *)
Lemma duplicate_pairs_forward_last_change_witness :
  last_amount 5 [(5, 3); (5, 4)] = Some 4 /\
  getd (totals (item_stats
          (apply_inventory_event (GameState_init ∅ None)
             (mkInventoryEvent 1000 7 ITEM_ADD [(5, 3); (5, 4)] (Some 1%nat) [])))) 5
  = getd (totals (item_stats (GameState_init ∅ None))) 5 + 1 * 4.
Proof.
  split; [reflexivity |].
  exact (proj1 (proj2 (proj2 (proj2 (proj2
           (duplicate_pairs_forward_last_change (GameState_init ∅ None)
              (mkInventoryEvent 1000 7 ITEM_ADD [(5, 3); (5, 4)] (Some 1%nat) [])
              5 4 eq_refl)))))).
Defined.

(** C2, at the input on which it fails.  The line
    [[1000] ITEM_ADD | 7, (5, 3, 5, 4)] is accepted by the parser; applied
    to a fresh state it leaves 7 units of item 5 with player 7, the net
    quantity of item 5 over the event is 7, and [totals[5]] is 4. *)
Theorem totals_miss_duplicate_pairs :
  exists e,
    parse_inventory_line (lit "[1000] ITEM_ADD | 7, (5, 3, 5, 4)") (Some 1%nat) = Ok (Some e) /\
    inv_items e = [(5, 3); (5, 4)] /\
    let gs := apply_events (GameState_init ∅ None) [InvEv e] in
    net_quantity 5 [InvEv e] = 7 /\
    player_count gs 7 5 = 7 /\
    getd (totals (item_stats gs)) 5 = 4 /\
    getd (owner_counts (item_stats gs)) 5 = 0.
Proof.
  eexists. split; [vm_compute; reflexivity |].
  split; [reflexivity |]. cbn zeta. split_and!; vm_compute; reflexivity.
Qed.

Lemma last_amount_absent t items : t ∉ map fst items -> last_amount t items = None.
Proof.
  induction items as [|[id am] items IH]; cbn [map fst last_amount]; [done |].
  rewrite not_elem_of_cons. intros [Hne Hnot]. rewrite IH by done.
  destruct (id =? t) eqn:E; [lia | done].
Qed.

Lemma sum_amounts_distinct t items :
  NoDup (map fst items) -> sum_amounts t items = default 0 (last_amount t items).
Proof.
  induction items as [|[id am] items IH]; cbn [map fst last_amount sum_amounts]; [done |].
  intros Hnd. apply NoDup_cons in Hnd as [Hid Hnd].
  destruct (id =? t) eqn:E.
  - apply Z.eqb_eq in E. subst id. rewrite (last_amount_absent _ _ Hid).
    rewrite (sum_amounts_absent t items); [cbn; lia | by apply last_amount_absent].
  - rewrite IH by done. by destruct (last_amount t items).
Qed.

(** Away from duplicated item types the totals are the net quantities. *)
Lemma totals_net_quantity_distinct evs : forall gs t,
  Forall distinct_items evs ->
  getd (totals (item_stats (apply_events gs evs))) t =
  getd (totals (item_stats gs)) t + net_quantity t evs.
Proof.
  unfold apply_events.
  induction evs as [|ev evs IH]; intros gs t Hd; cbn [fold_left net_quantity]; [lia |].
  apply Forall_cons in Hd as [Hev Hd]. rewrite IH by done.
  destruct ev as [e | e]; cbn [apply_event].
  - pose proof (apply_inventory_event_view gs e t) as Hview.
    cbn in Hev. rewrite (sum_amounts_distinct t _ Hev).
    destruct (last_amount t (inv_items e)) as [a|]; cbn zeta in Hview; unfold view in Hview;
      injection Hview as -> _ _; cbn [default]; unfold id; lia.
  - rewrite apply_money_event_stats. lia.
Qed.

(** C8. An [ITEM_ADD] of the pair [(t, a)] followed by an [ITEM_REMOVE] of
    the same pair.  For any player [p]: the stored count of [t] is back to
    its value [c] before the two calls, and the two recorded changes are
    [(a, c, c + a)] and [(-a, c + a, c)], whose deltas sum to zero.  For any
    game state and any player of it: after the two events the count of [t]
    of that player and [totals[t]] are what they were before. *)
Theorem add_then_remove_restores (p : Player) (gs : GameState) (pid t a ts1 ts2 : Z)
    (n1 n2 : option nat) (r1 r2 : str) :
  let c := get_item_count p t in
  let added := apply_inventory p ITEM_ADD [(t, a)] ts1 in
  let removed := apply_inventory (fst added) ITEM_REMOVE [(t, a)] ts2 in
  let gs1 := apply_inventory_event gs (mkInventoryEvent ts1 pid ITEM_ADD [(t, a)] n1 r1) in
  let gs2 := apply_inventory_event gs1 (mkInventoryEvent ts2 pid ITEM_REMOVE [(t, a)] n2 r2) in
  get_item_count (fst removed) t = c /\
  snd added = [(t, (a, c, c + a))] /\
  snd removed = [(t, (- a, c + a, c))] /\
  a + - a = 0 /\
  player_count gs2 pid t = player_count gs pid t /\
  getd (totals (item_stats gs1)) t = getd (totals (item_stats gs)) t + a /\
  getd (totals (item_stats gs2)) t = getd (totals (item_stats gs)) t.
Proof.
  intros c added removed gs1 gs2.
  assert (Hm1 : multiplier ITEM_ADD = 1) by reflexivity.
  assert (Hm2 : multiplier ITEM_REMOVE = -1) by reflexivity.
  assert (Hadd : get_item_count (fst added) t = c + a).
  { subst added. rewrite apply_inventory_count, Hm1. cbn [sum_amounts].
    rewrite Z.eqb_refl. subst c. lia. }
  assert (Hc1 : player_count gs1 pid t = player_count gs pid t + a).
  { pose proof (apply_inventory_event_count gs
                  (mkInventoryEvent ts1 pid ITEM_ADD [(t, a)] n1 r1) t) as H.
    change (player_count gs1 pid t =
            player_count gs pid t
            + multiplier ITEM_ADD * ((if t =? t then a else 0) + 0)) in H.
    rewrite Hm1, Z.eqb_refl in H. lia. }
  assert (Hc2 : player_count gs2 pid t = player_count gs pid t).
  { pose proof (apply_inventory_event_count gs1
                  (mkInventoryEvent ts2 pid ITEM_REMOVE [(t, a)] n2 r2) t) as H.
    change (player_count gs2 pid t =
            player_count gs1 pid t
            + multiplier ITEM_REMOVE * ((if t =? t then a else 0) + 0)) in H.
    rewrite Hm2, Z.eqb_refl, Hc1 in H. lia. }
  pose proof (apply_inventory_event_view gs
                (mkInventoryEvent ts1 pid ITEM_ADD [(t, a)] n1 r1) t) as Hv1.
  pose proof (apply_inventory_event_view gs1
                (mkInventoryEvent ts2 pid ITEM_REMOVE [(t, a)] n2 r2) t) as Hv2.
  cbn [inv_items inv_action last_amount] in Hv1, Hv2.
  rewrite Z.eqb_refl in Hv1, Hv2. cbn zeta in Hv1, Hv2. unfold view in Hv1, Hv2.
  rewrite Hm1 in Hv1. rewrite Hm2 in Hv2.
  apply (f_equal (fun v => fst (fst v))) in Hv1, Hv2. cbn [fst] in Hv1, Hv2.
  change (apply_inventory_event gs _) with gs1 in Hv1.
  change (apply_inventory_event gs1 _) with gs2 in Hv2.
  split_and!.
  - subst removed. rewrite apply_inventory_count, Hm2, Hadd. cbn [sum_amounts].
    rewrite Z.eqb_refl. lia.
  - subst added. rewrite apply_inventory_snd, Hm1. cbn [apply_inventory_loop dict_set snd].
    fold (get_item_count p t). fold c. by replace (1 * a) with a by lia.
  - subst removed. rewrite apply_inventory_snd, Hm2. cbn [apply_inventory_loop dict_set snd].
    fold (get_item_count (fst added) t). rewrite Hadd.
    replace (-1 * a) with (- a) by lia. by replace (c + a + - a) with c by lia.
  - lia.
  - exact Hc2.
  - lia.
  - lia.
Qed.

End AggregationClaims.

(** *** First appearances *)

Section FirstAppearances.

Import Parsers State Combiner Props.

Lemma register_appearance_order s id ts :
  _first_seen_order (register_appearance s id ts) =
  _first_seen_order s ++ first_occurrences (dom (_first_seen_ts s)) [(id, ts)].
Proof.
  unfold register_appearance. cbn [first_occurrences].
  destruct (decide (id ∈ dom (_first_seen_ts s))) as [Hin | Hnot].
  - rewrite !bool_decide_eq_true_2; [by rewrite app_nil_r | done | by apply elem_of_dom].
  - rewrite !bool_decide_eq_false_2; [done | done | by rewrite <- elem_of_dom].
Qed.

Lemma register_appearance_dom s id ts :
  dom (_first_seen_ts (register_appearance s id ts)) = {[id]} ∪ dom (_first_seen_ts s).
Proof.
  unfold register_appearance. case_bool_decide as H.
  - apply elem_of_dom in H. set_solver.
  - cbn. apply dom_insert_L.
Qed.

Lemma first_occurrences_app seen a b :
  first_occurrences seen (a ++ b) =
  first_occurrences seen a ++ first_occurrences (list_to_set (map fst a) ∪ seen) b.
Proof.
  revert seen. induction a as [|[id ts] a IH]; intros seen; cbn [app first_occurrences map fst list_to_set].
  - f_equal. set_solver.
  - case_bool_decide as H.
    + rewrite IH. do 2 f_equal. set_solver.
    + cbn [app]. rewrite IH. do 3 f_equal. set_solver.
Qed.

Lemma register_all_order calls : forall s,
  _first_seen_order (register_all s calls) =
    _first_seen_order s ++ first_occurrences (dom (_first_seen_ts s)) calls /\
  dom (_first_seen_ts (register_all s calls)) =
    list_to_set (map fst calls) ∪ dom (_first_seen_ts s).
Proof.
  unfold register_all.
  induction calls as [|[id ts] calls IH]; intros s; cbn [fold_left map fst snd list_to_set].
  - split; [by rewrite app_nil_r | set_solver].
  - destruct (IH (register_appearance s id ts)) as [-> ->].
    rewrite register_appearance_order, register_appearance_dom. split; [| set_solver].
    rewrite <- app_assoc. f_equal.
    change ((id, ts) :: calls) with ([(id, ts)] ++ calls).
    rewrite (first_occurrences_app _ [(id, ts)] calls). do 2 f_equal.
    cbn. set_solver.
Qed.

Lemma first_occurrences_fresh calls : forall seen,
  NoDup (map snd (first_occurrences seen calls)) /\
  forall id, id ∈ map snd (first_occurrences seen calls) -> id ∉ seen.
Proof.
  induction calls as [|[id ts] calls IH]; intros seen; cbn [first_occurrences].
  - split; [constructor | intros id H; by apply elem_of_nil in H].
  - case_bool_decide as H; [apply IH |].
    destruct (IH ({[id]} ∪ seen)) as [Hnd Hfresh]. cbn [map snd]. split.
    + constructor; [| done]. intros Hin. apply Hfresh in Hin. set_solver.
    + intros id' Hin. apply elem_of_cons in Hin as [-> | Hin]; [done |].
      apply Hfresh in Hin. set_solver.
Qed.

(** Registering a repeated item again changes nothing. *)
Lemma first_occurrences_seen seen id ts rest :
  id ∈ seen -> first_occurrences seen ((id, ts) :: rest) = first_occurrences seen rest.
Proof. intros H. cbn. by rewrite bool_decide_eq_true_2. Qed.

Lemma first_occurrences_keys_after ts ids : forall ks seen,
  first_occurrences seen (at_time ts (keys_after ks ids)) =
  first_occurrences seen (at_time ts (ks ++ ids)).
Proof.
  unfold at_time.
  induction ids as [|id ids IH]; intros ks seen; cbn [keys_after].
  - by rewrite app_nil_r.
  - rewrite IH. case_bool_decide as Hin.
    + rewrite !map_app, !first_occurrences_app. f_equal. cbn [map].
      rewrite first_occurrences_seen; [done |].
      apply elem_of_union_l, elem_of_list_to_set.
      rewrite map_map. cbn. by rewrite map_id.
    + by rewrite <- app_assoc.
Qed.

Lemma apply_inventory_loop_keys m items : forall inv ch,
  map fst (snd (apply_inventory_loop m items inv ch)) = keys_after (map fst ch) (map fst items).
Proof.
  induction items as [|[id am] items IH]; intros inv ch; cbn [apply_inventory_loop map fst keys_after]; [done |].
  by rewrite IH, dict_set_keys.
Qed.

(** Only [register_appearance] touches the record of first appearances. *)
Lemma forward_change_first_seen ts s k c :
  _first_seen_ts (forward_change ts s (k, c)) = _first_seen_ts (register_appearance s k ts) /\
  _first_seen_order (forward_change ts s (k, c)) = _first_seen_order (register_appearance s k ts).
Proof.
  destruct c as [[d p] u]. unfold forward_change.
  destruct (update_owner_count_fields
              (record_delta (record_mention (register_appearance s k ts) k) k d) k p u)
    as (_ & _ & -> & ->).
  done.
Qed.

Lemma register_appearance_congr s s' k ts :
  _first_seen_ts s = _first_seen_ts s' ->
  _first_seen_order s = _first_seen_order s' ->
  _first_seen_ts (register_appearance s k ts) = _first_seen_ts (register_appearance s' k ts) /\
  _first_seen_order (register_appearance s k ts) = _first_seen_order (register_appearance s' k ts).
Proof.
  intros H1 H2. unfold register_appearance. rewrite H1.
  case_bool_decide; cbn; by rewrite ?H1, ?H2.
Qed.

Lemma forward_changes_first_seen ts changes : forall s s',
  _first_seen_ts s = _first_seen_ts s' ->
  _first_seen_order s = _first_seen_order s' ->
  _first_seen_ts (fold_left (forward_change ts) changes s) =
    _first_seen_ts (register_all s' (at_time ts (map fst changes))) /\
  _first_seen_order (fold_left (forward_change ts) changes s) =
    _first_seen_order (register_all s' (at_time ts (map fst changes))).
Proof.
  unfold register_all, at_time.
  induction changes as [|[k c] changes IH]; intros s s' H1 H2; cbn [fold_left map fst snd]; [done |].
  apply IH.
  - destruct (forward_change_first_seen ts s k c) as [-> _].
    by apply register_appearance_congr.
  - destruct (forward_change_first_seen ts s k c) as [_ ->].
    by apply register_appearance_congr.
Qed.

(** The first appearances after one inventory event. *)
Lemma apply_inventory_event_first_seen gs e :
  let s := item_stats gs in
  let s' := item_stats (apply_inventory_event gs e) in
  let calls := map (fun p => (fst p, inv_timestamp e)) (inv_items e) in
  _first_seen_order s' = _first_seen_order s ++ first_occurrences (dom (_first_seen_ts s)) calls /\
  dom (_first_seen_ts s') = list_to_set (map fst calls) ∪ dom (_first_seen_ts s).
Proof.
  intros s s' calls. subst s s'. rewrite apply_inventory_event_stats.
  destruct (forward_changes_first_seen (inv_timestamp e)
              (snd (apply_inventory (snd (registry_get (players gs) (inv_player_id e)))
                      (inv_action e) (inv_items e) (inv_timestamp e)))
              (item_stats gs) (item_stats gs) eq_refl eq_refl) as [Hts Hord].
  rewrite Hts, Hord. clear Hts Hord.
  rewrite apply_inventory_snd, apply_inventory_loop_keys. cbn [map].
  destruct (register_all_order
              (at_time (inv_timestamp e) (keys_after [] (map fst (inv_items e))))
              (item_stats gs)) as [Hord Hts].
  rewrite Hts, Hord. clear Hts Hord.
  assert (Hcalls : calls = at_time (inv_timestamp e) ([] ++ map fst (inv_items e))).
  { subst calls. unfold at_time. cbn [app]. by rewrite map_map. }
  rewrite first_occurrences_keys_after, <- Hcalls. split; [done |].
  f_equal. unfold at_time. rewrite map_map. cbn [fst]. rewrite map_id.
  subst calls. rewrite map_map. cbn [fst].
  assert (forall ids ks, list_to_set (C := gset Z) (keys_after ks ids)
                         = list_to_set ks ∪ list_to_set ids) as Hk.
  { clear. induction ids as [|id ids IH]; intros ks; cbn [keys_after list_to_set]; [set_solver |].
    rewrite IH. case_bool_decide as Hin; [| rewrite list_to_set_app_L; cbn; set_solver].
    apply (elem_of_list_to_set (C := gset Z)) in Hin. set_solver. }
  rewrite Hk. set_solver.
Qed.

End FirstAppearances.

Section FirstAppearanceClaim.

Import Parsers State Combiner Props.

Lemma apply_events_first_seen evs : forall gs,
  _first_seen_order (item_stats (apply_events gs evs)) =
  _first_seen_order (item_stats gs)
  ++ first_occurrences (dom (_first_seen_ts (item_stats gs))) (appearances evs).
Proof.
  unfold apply_events.
  induction evs as [|ev evs IH]; intros gs; cbn [fold_left appearances].
  - by rewrite app_nil_r.
  - rewrite IH. destruct ev as [e | e]; cbn [apply_event].
    + destruct (apply_inventory_event_first_seen gs e) as [Hord Hts]. cbn zeta in Hord, Hts.
      rewrite Hord, Hts, first_occurrences_app, <- app_assoc. done.
    + by rewrite apply_money_event_stats.
Qed.

Lemma first_occurrences_elem calls : forall seen ts id,
  ((ts, id) ∈ first_occurrences seen calls) <->
  (id ∉ seen /\ exists l1 l2, calls = l1 ++ (id, ts) :: l2 /\ id ∉ map fst l1).
Proof.
  induction calls as [|[id0 ts0] calls IH]; intros seen ts id; cbn [first_occurrences].
  - split; [intros H; by apply elem_of_nil in H |].
    intros (_ & l1 & l2 & H & _). by destruct l1.
  - case_bool_decide as Hseen.
    + rewrite IH. split.
      * intros (Hid & l1 & l2 & -> & Hl1). split; [done |].
        exists ((id0, ts0) :: l1), l2. split; [done |].
        cbn [map fst]. rewrite not_elem_of_cons. split; [| done]. by intros ->.
      * intros (Hid & l1 & l2 & Heq & Hl1). split; [done |].
        destruct l1 as [|x l1]; cbn [app] in Heq.
        -- injection Heq as -> -> ->. done.
        -- injection Heq as <- ->. exists l1, l2. split; [done |]. cbn [map] in Hl1.
           by apply not_elem_of_cons in Hl1 as [_ ?].
    + rewrite elem_of_cons, IH. split.
      * intros [Heq | (Hid & l1 & l2 & -> & Hl1)].
        -- injection Heq as -> ->. split; [done |]. exists [], calls. split; [done |].
           apply not_elem_of_nil.
        -- split; [set_solver |]. exists ((id0, ts0) :: l1), l2. split; [done |].
           cbn [map fst]. rewrite not_elem_of_cons. split; [set_solver | done].
      * intros (Hid & l1 & l2 & Heq & Hl1).
        destruct l1 as [|x l1]; cbn [app] in Heq.
        -- left. by injection Heq as -> -> ->.
        -- right. injection Heq as <- ->. cbn [map fst] in Hl1.
           apply not_elem_of_cons in Hl1 as [Hne Hl1].
           split; [set_solver |]. by exists l1, l2.
Qed.

Lemma first_occurrences_sublist calls : forall seen,
  sublist (first_occurrences seen calls) (map (fun c => (snd c, fst c)) calls).
Proof.
  induction calls as [|[id ts] calls IH]; intros seen; cbn [first_occurrences map fst snd].
  - constructor.
  - case_bool_decide; [apply sublist_cons | apply sublist_skip]; apply IH.
Qed.

(** C7. From fresh statistics, after any sequence of calls to
    [register_appearance]: no item occurs twice in the first-seen sequence;
    an entry [(ts, id)] is in it exactly when some call for [id] with time
    [ts] has no earlier call for [id]; the entries stand in the order of
    those calls; in all, the sequence is the list of the first occurrences
    of the calls.  And the sequence that any events leave in the game state
    is the one of the calls that they stand for, pair by pair in processing
    order. *)
Theorem first_seen_in_processing_order (calls : list (Z * Z))
    (registry : gmap Z Player) (evs : list event) :
  let order := _first_seen_order (register_all ItemStatistics_init calls) in
  order = first_occurrences ∅ calls /\
  NoDup (map snd order) /\
  (forall ts id, (ts, id) ∈ order <->
     exists l1 l2, calls = l1 ++ (id, ts) :: l2 /\ id ∉ map fst l1) /\
  sublist order (map (fun c => (snd c, fst c)) calls) /\
  _first_seen_order (item_stats (apply_events (GameState_init registry None) evs)) =
    _first_seen_order (register_all ItemStatistics_init (appearances evs)).
Proof.
  intros order.
  assert (forall cs, _first_seen_order (register_all ItemStatistics_init cs)
                     = first_occurrences ∅ cs) as Hreg.
  { intros cs. destruct (register_all_order cs ItemStatistics_init) as [-> _].
    cbn. by rewrite dom_empty_L. }
  subst order. rewrite !Hreg. split_and!.
  - done.
  - apply first_occurrences_fresh.
  - intros ts id. rewrite first_occurrences_elem. split; [by intros [_ ?] |].
    intros H. split; [set_solver | done].
  - apply first_occurrences_sublist.
  - rewrite apply_events_first_seen. cbn. by rewrite dom_empty_L.
Qed.

End FirstAppearanceClaim.

(** ** Properties of [src/parsers.py] *)

Section Characters.

Import Parsers Props.

Lemma digit_not_space c : is_digit c = true -> is_space c = false.
Proof. destruct c as [[] [] [] [] [] [] [] []]; (discriminate || reflexivity). Qed.

Lemma digit_val_nonneg c : is_digit c = true -> 0 <= digit_val c.
Proof. destruct c as [[] [] [] [] [] [] [] []]; (discriminate || (intros _; by vm_compute)). Qed.

Lemma ascii_eqb_eq (a b : ascii) : Ascii.eqb a b = true <-> a = b.
Proof. apply Ascii.eqb_eq. Qed.

Lemma ascii_eqb_neq (a b : ascii) : Ascii.eqb a b = false <-> a ≠ b.
Proof. apply Ascii.eqb_neq. Qed.

Lemma lstrip_decompose s : exists w, s = w ++ lstrip s /\ all_spaces w.
Proof.
  induction s as [|c s (w & Hs & Hw)]; cbn [lstrip].
  - by exists [].
  - destruct (is_space c) eqn:E.
    + exists (c :: w). split; [by rewrite <- app_comm_cons, <- Hs |].
      unfold all_spaces. cbn. by rewrite E.
    + by exists [].
Qed.

Lemma lstrip_head c s : is_space c = false -> lstrip (c :: s) = c :: s.
Proof. intros H. cbn. by rewrite H. Qed.

Lemma lstrip_spaces w s : all_spaces w -> lstrip (w ++ s) = lstrip s.
Proof.
  unfold all_spaces. induction w as [|c w IH]; cbn; [done |].
  intros H. apply andb_true_iff in H as [-> H]. by apply IH.
Qed.

Lemma rstrip_decompose s : exists w, s = rstrip s ++ w /\ all_spaces w.
Proof.
  unfold rstrip. destruct (lstrip_decompose (rev s)) as (w & Hs & Hw).
  exists (rev w). split.
  - rewrite <- (rev_involutive s), Hs at 1. by rewrite rev_app_distr.
  - unfold all_spaces in *. rewrite forallb_forall in *.
    intros c Hc. apply Hw. by apply in_rev.
Qed.

Lemma strip_decompose s : exists w1 w2, s = w1 ++ strip s ++ w2 /\ all_spaces w1 /\ all_spaces w2.
Proof.
  unfold strip. destruct (lstrip_decompose s) as (w1 & Hs1 & Hw1).
  destruct (rstrip_decompose (lstrip s)) as (w2 & Hs2 & Hw2).
  exists w1, w2. split; [| done]. by rewrite <- Hs2.
Qed.

(** Stripping keeps only characters of the text. *)
Lemma strip_subseteq s c : c ∈ strip s -> c ∈ s.
Proof.
  destruct (strip_decompose s) as (w1 & w2 & Hs & _). intros H.
  rewrite Hs. rewrite !elem_of_app. auto.
Qed.

Lemma split_subseteq sep s tok c : tok ∈ split sep s -> c ∈ tok -> c ∈ s.
Proof.
  revert tok. induction s as [|x s IH]; intros tok; cbn [split].
  - intros H. apply list_elem_of_singleton in H. by subst.
  - destruct (Ascii.eqb x sep).
    + intros H Hc. apply elem_of_cons in H as [-> | H]; [by apply elem_of_nil in Hc |].
      apply elem_of_cons. right. by apply (IH tok).
    + destruct (split sep s) as [|h t] eqn:Es.
      * intros H Hc. apply list_elem_of_singleton in H. subst.
        apply list_elem_of_singleton in Hc. subst. by left.
      * intros H Hc. apply elem_of_cons in H as [-> | H].
        -- apply elem_of_cons in Hc as [-> | Hc]; [by left |].
           apply elem_of_cons. right. apply (IH h); [by left | done].
        -- apply elem_of_cons. right. apply (IH tok); [by right | done].
Qed.

Lemma items_tokens_subseteq g4 tok c : tok ∈ items_tokens_of g4 -> c ∈ tok -> c ∈ g4.
Proof.
  unfold items_tokens_of. intros H Hc.
  apply list_elem_of_fmap in H as (raw & -> & Hraw).
  apply list_elem_of_filter in Hraw as [_ Hraw].
  apply (split_subseteq "," g4 raw); [done |]. by apply strip_subseteq.
Qed.

Lemma items_tokens_stripped g4 tok : tok ∈ items_tokens_of g4 -> tok ≠ [].
Proof.
  unfold items_tokens_of. intros H.
  apply list_elem_of_fmap in H as (raw & -> & Hraw).
  by apply list_elem_of_filter in Hraw as [Hne _].
Qed.

End Characters.

(** *** The matcher against the declarative format *)

Section LineFormat.

Import Parsers Props.

Lemma expect_Some c s r : expect c s = Some r <-> s = c :: r.
Proof.
  unfold expect. destruct s as [|x s]; [done |].
  destruct (Ascii.eqb x c) eqn:E.
  - apply Ascii.eqb_eq in E. subst. split; intros H; by simplify_eq.
  - apply Ascii.eqb_neq in E. split; intros H; by simplify_eq.
Qed.

Lemma expect_lit_Some w : forall s r, expect_lit w s = Some r <-> s = w ++ r.
Proof.
  induction w as [|c w IH]; intros s r; cbn [expect_lit app].
  - split; intros H; by simplify_eq.
  - destruct (expect c s) as [r'|] eqn:E; cbn [mbind option_bind].
    + apply expect_Some in E. subst s. rewrite IH. split; intros H; by simplify_eq.
    + split; [done |]. intros ->. cbn in E. by rewrite Ascii.eqb_refl in E.
Qed.

Lemma span_spec p s :
  s = fst (span p s) ++ snd (span p s) /\
  forallb p (fst (span p s)) = true /\
  starts_outside p (snd (span p s)).
Proof.
  induction s as [|c s IH]; cbn [span]; [done |].
  destruct (p c) eqn:E; [| done].
  destruct (span p s) as [a b]. cbn [fst snd] in *.
  destruct IH as (-> & Ha & Hb). cbn. by rewrite E, Ha.
Qed.

Lemma span_app p a b :
  forallb p a = true -> starts_outside p b -> span p (a ++ b) = (a, b).
Proof.
  induction a as [|c a IH]; cbn [app forallb].
  - intros _ Hb. destruct b as [|c b]; [done |]. cbn in *. by rewrite Hb.
  - intros H Hb. apply andb_true_iff in H as [Hc Ha]. cbn. by rewrite Hc, IH.
Qed.

Lemma digits1_Some s d r :
  digits1 s = Some (d, r) <-> s = d ++ r /\ all_digits d /\ starts_outside is_digit r.
Proof.
  unfold digits1, all_digits. split.
  - destruct (span_spec is_digit s) as (Hs & Hd & Hr).
    destruct (span is_digit s) as [d' r']. cbn [fst snd] in *.
    destruct d'; [done |]. intros H. by simplify_eq.
  - intros (-> & [Hne Hd] & Hr). rewrite span_app by done. by destruct d.
Qed.

Lemma spaces_spec s : exists w, s = w ++ spaces s /\ all_spaces w /\ starts_outside is_space (spaces s).
Proof.
  unfold spaces. destruct (span_spec is_space s) as (Hs & Hw & Hr). eauto.
Qed.

Lemma spaces_app w s : all_spaces w -> starts_outside is_space s -> spaces (w ++ s) = s.
Proof. intros Hw Hs. unfold spaces. by rewrite span_app. Qed.

Lemma action_group_Some s g r :
  action_group s = Some (g, r) <-> s = g ++ r /\ (g = ITEM_ADD \/ g = ITEM_REMOVE).
Proof.
  unfold action_group. split.
  - destruct (expect_lit ITEM_ADD s) as [r'|] eqn:E.
    + apply expect_lit_Some in E. intros H. simplify_eq. auto.
    + destruct (expect_lit ITEM_REMOVE s) as [r'|] eqn:E'; [| done].
      apply expect_lit_Some in E'. cbn. intros H. simplify_eq. auto.
  - intros [-> [-> | ->]].
    + by rewrite (proj2 (expect_lit_Some ITEM_ADD _ r) eq_refl).
    + replace (expect_lit ITEM_ADD (ITEM_REMOVE ++ r)) with (@None str) by reflexivity.
      by rewrite (proj2 (expect_lit_Some ITEM_REMOVE _ r) eq_refl).
Qed.

Lemma match_items_tail_spaces w : all_spaces w -> match_items_tail w = None.
Proof.
  unfold all_spaces. induction w as [|c w IH]; cbn [match_items_tail forallb]; [done |].
  intros H. apply andb_true_iff in H as [Hc Hw]. rewrite IH by done.
  assert (Ascii.eqb c ")" = false) as ->.
  { apply Ascii.eqb_neq. intros ->. discriminate. }
  cbn. by destruct (Ascii.eqb c "010").
Qed.

Lemma match_items_tail_Some s g :
  match_items_tail s = Some g <->
  exists w, s = g ++ ")"%char :: w /\ all_spaces w /\ newline ∉ g.
Proof.
  revert g. induction s as [|c s IH]; intros g; cbn [match_items_tail].
  - split; [done |]. intros (w & H & _). by destruct g.
  - destruct (Ascii.eqb c "010") eqn:Enl.
    + apply Ascii.eqb_eq in Enl. subst c. cbn. split; [done |].
      intros (w & H & _ & Hg). destruct g as [|x g]; [done |].
      injection H as <- _. exfalso. apply Hg. by left.
    + apply Ascii.eqb_neq in Enl.
      destruct (match_items_tail s) as [g'|] eqn:Es.
      * destruct (proj1 (IH g') eq_refl) as (w & Hs & Hw & Hg'). split.
        -- intros H. simplify_eq. exists w. split_and!; [done | done |].
           by apply not_elem_of_cons.
        -- intros (w' & H & Hw' & Hg). destruct g as [|x g].
           ++ cbn in H. injection H as -> H.
              exfalso. assert (")"%char ∈ w') as Hin.
              { rewrite <- H, Hs. set_solver. }
              unfold all_spaces in Hw'. rewrite forallb_forall in Hw'.
              apply list_elem_of_In, Hw' in Hin. discriminate.
           ++ cbn in H. injection H as <- H.
              apply not_elem_of_cons in Hg as [_ Hg].
              assert (Some g' = Some g) as Hm by (apply IH; eauto).
              by simplify_eq.
      * destruct (Ascii.eqb c ")" && forallb is_space s) eqn:Eh.
        -- apply andb_true_iff in Eh as [Ec Eh]. apply Ascii.eqb_eq in Ec. subst c. split.
           ++ intros H. simplify_eq. exists s. split_and!; [done | done | apply not_elem_of_nil].
           ++ intros (w & H & Hw & Hg). destruct g as [|x g]; [done |].
              cbn in H. injection H as <- H. apply not_elem_of_cons in Hg as [_ Hg].
              assert (None = Some g) as Hm by (apply IH; eauto).
              discriminate.
        -- split; [done |]. intros (w & H & Hw & Hg). destruct g as [|x g].
           ++ cbn in H. injection H as -> ->. unfold all_spaces in Hw.
              rewrite Hw in Eh. cbn in Eh. discriminate.
           ++ cbn in H. injection H as <- H. apply not_elem_of_cons in Hg as [_ Hg].
              assert (None = Some g) as Hm by (apply IH; eauto).
              discriminate.
Qed.

End LineFormat.

Section LineMatch.

Import Parsers Props.

Lemma starts_outside_digits_space g rest : all_digits g -> starts_outside is_space (g ++ rest).
Proof.
  intros [Hne Hd]. destruct g as [|c g]; [done |]. cbn in *.
  apply andb_true_iff in Hd as [Hc _]. by apply digit_not_space.
Qed.

(** The matcher returns groups exactly for the texts of the format. *)
Lemma inventory_line_match_spec text g1 g2 g3 g4 :
  inventory_line_match text = Some (g1, g2, g3, g4) <-> line_format text g1 g2 g3 g4.
Proof.
  unfold inventory_line_match, line_format. split.
  - destruct (expect "[" text) as [r0|] eqn:E0; [| done]. cbn [mbind option_bind].
    apply expect_Some in E0.
    destruct (digits1 r0) as [[d1 r1]|] eqn:E1; [| done]. cbn [mbind option_bind].
    apply digits1_Some in E1 as (Hr0 & Hd1 & _).
    destruct (expect "]" r1) as [r2|] eqn:E2; [| done]. cbn [mbind option_bind].
    apply expect_Some in E2.
    destruct (spaces_spec r2) as (w1 & Hr2 & Hw1 & _).
    destruct (action_group (spaces r2)) as [[a r3]|] eqn:E3; [| done]. cbn [mbind option_bind].
    apply action_group_Some in E3 as [Hr3 Ha].
    destruct (spaces_spec r3) as (w2 & Hr3' & Hw2 & _).
    destruct (expect "|" (spaces r3)) as [r4|] eqn:E4; [| done]. cbn [mbind option_bind].
    apply expect_Some in E4.
    destruct (spaces_spec r4) as (w3 & Hr4 & Hw3 & _).
    destruct (digits1 (spaces r4)) as [[d3 r5]|] eqn:E5; [| done]. cbn [mbind option_bind].
    apply digits1_Some in E5 as (Hr5 & Hd3 & _).
    destruct (expect "," r5) as [r6|] eqn:E6; [| done]. cbn [mbind option_bind].
    apply expect_Some in E6.
    destruct (spaces_spec r6) as (w4 & Hr6 & Hw4 & _).
    destruct (expect "(" (spaces r6)) as [r7|] eqn:E7; [| done]. cbn [mbind option_bind].
    apply expect_Some in E7.
    destruct (match_items_tail r7) as [g|] eqn:E8; [| done]. cbn [mbind option_bind].
    apply match_items_tail_Some in E8 as (w5 & Hr7 & Hw5 & Hg).
    intros H. simplify_eq. exists w1, w2, w3, w4, w5. split_and!; try done.
    rewrite Hr2, Hr3, Hr3', E4, Hr4, Hr5, Hr6, E7. done.
  - intros (w1 & w2 & w3 & w4 & w5 & -> & Hd1 & Hd3 & Ha & Hw1 & Hw2 & Hw3 & Hw4 & Hw5 & Hg).
    cbn [expect Ascii.eqb Bool.eqb mbind option_bind].
    rewrite (proj2 (digits1_Some _ g1 _)) by done. cbn [mbind option_bind expect Ascii.eqb Bool.eqb].
    rewrite spaces_app; [| done | by destruct Ha as [-> | ->]].
    rewrite (proj2 (action_group_Some _ g2 _)) by done. cbn [mbind option_bind].
    rewrite spaces_app by done. cbn [mbind option_bind expect Ascii.eqb Bool.eqb].
    rewrite spaces_app; [| done | by apply starts_outside_digits_space].
    rewrite (proj2 (digits1_Some _ g3 _)) by done. cbn [mbind option_bind expect Ascii.eqb Bool.eqb].
    rewrite spaces_app by done. cbn [mbind option_bind expect Ascii.eqb Bool.eqb].
    rewrite (proj2 (match_items_tail_Some _ g4)) by eauto. done.
Qed.

(** A text has at most one reading in the format. *)
Lemma line_format_unique text g1 g2 g3 g4 h1 h2 h3 h4 :
  line_format text g1 g2 g3 g4 -> line_format text h1 h2 h3 h4 ->
  g1 = h1 /\ g2 = h2 /\ g3 = h3 /\ g4 = h4.
Proof.
  intros Hg Hh. apply inventory_line_match_spec in Hg, Hh.
  rewrite Hg in Hh. by simplify_eq.
Qed.

End LineMatch.

(** *** [int] on the tokens of a line *)

Section IntTokens.

Import Parsers Props.

Lemma int_total s : (exists v, int s = Ok v) \/ int s = Raise ValueError.
Proof.
  unfold int. destruct (match strip s with [] => _ | _ => _ end); eauto.
Qed.

Lemma int_digits_nonneg s : forall acc prev v,
  0 <= acc -> int_digits acc prev s = Some v -> 0 <= v.
Proof.
  induction s as [|c s IH]; intros acc prev v Hacc; cbn [int_digits].
  - destruct prev; [| done]. intros H. by simplify_eq.
  - destruct (is_digit c) eqn:Ed.
    + apply IH. pose proof (digit_val_nonneg c Ed). lia.
    + destruct (Ascii.eqb c "_" && prev); [by apply IH | done].
Qed.

Lemma int_digits_all s : forall acc prev,
  forallb is_digit s = true -> s ≠ [] \/ prev = true ->
  exists v, int_digits acc prev s = Some v.
Proof.
  induction s as [|c s IH]; intros acc prev Hd Hne; cbn [int_digits].
  - destruct Hne as [? | ->]; [done | eauto].
  - cbn in Hd. apply andb_true_iff in Hd as [-> Hd]. apply IH; [done | by right].
Qed.

Lemma strip_no_space s : (forall c, c ∈ s -> is_space c = false) -> strip s = s.
Proof.
  intros H. unfold strip, rstrip.
  assert (forall t, (forall c, c ∈ t -> is_space c = false) -> lstrip t = t) as Hl.
  { intros [|c t] Ht; [done |]. apply lstrip_head, Ht. by left. }
  rewrite (Hl s H), Hl; [apply rev_involutive |].
  intros c Hc. apply H, list_elem_of_In, in_rev. by apply list_elem_of_In.
Qed.

(** The groups [(\d+)] always convert, to a non-negative integer. *)
Lemma int_all_digits d : all_digits d -> exists v, int d = Ok v /\ 0 <= v.
Proof.
  intros [Hne Hd]. unfold int. rewrite strip_no_space.
  - destruct d as [|c d]; [done |].
    assert (is_digit c = true) as Hc by (cbn in Hd; by apply andb_true_iff in Hd as [? _]).
    assert (Ascii.eqb c "-" = false) as -> by (apply Ascii.eqb_neq; by intros ->).
    assert (Ascii.eqb c "+" = false) as -> by (apply Ascii.eqb_neq; by intros ->).
    destruct (int_digits_all (c :: d) 0 false Hd) as [v Hv]; [by left |].
    rewrite Hv. exists v. split; [done |]. by apply (int_digits_nonneg _ _ _ _ (Z.le_refl 0) Hv).
  - intros c Hc. apply digit_not_space.
    rewrite forallb_forall in Hd. by apply Hd, list_elem_of_In.
Qed.

(** Without a minus sign the value is not negative. *)
Lemma int_no_minus tok v : "-"%char ∉ tok -> int tok = Ok v -> 0 <= v.
Proof.
  intros Hm. unfold int.
  assert ("-"%char ∉ strip tok) as Hs by (intros H; by apply Hm, strip_subseteq).
  destruct (strip tok) as [|c t]; [done |].
  assert (Ascii.eqb c "-" = false) as ->.
  { apply Ascii.eqb_neq. intros ->. apply Hs. by left. }
  destruct (Ascii.eqb c "+").
  - destruct (int_digits 0 false t) as [z|] eqn:E; [| done].
    intros H. simplify_eq. by apply (int_digits_nonneg _ _ _ _ (Z.le_refl 0) E).
  - destruct (int_digits 0 false (c :: t)) as [z|] eqn:E; [| done].
    intros H. simplify_eq. by apply (int_digits_nonneg _ _ _ _ (Z.le_refl 0) E).
Qed.

End IntTokens.

(** *** The loop over the tokens and the whole of [parse_inventory_line] *)

Section InventoryLine.

Import Parsers Props.

Lemma int_all_Some tokens vals :
  int_all tokens = Some vals <-> Forall2 (fun tok v => int tok = Ok v) tokens vals.
Proof.
  revert vals. induction tokens as [|tok tokens IH]; intros vals; cbn [int_all].
  - split; [intros H; simplify_eq; constructor | by inversion 1].
  - destruct (int tok) as [v | e] eqn:E.
    + destruct (int_all tokens) as [vs|]; cbn.
      * split.
        -- intros H. simplify_eq. constructor; [done | by apply IH].
        -- inversion 1 as [| ? v' ? vs' Hv Hvs]; subst. apply IH in Hvs.
           rewrite E in Hv. by simplify_eq.
      * split; [done |]. inversion 1 as [| ? v' ? vs' Hv Hvs]; subst. by apply IH in Hvs.
    + split; [done |]. inversion 1; congruence.
Qed.


Lemma parse_items_loop_spec tokens n : forall k acc,
  length tokens = (2 * (k + n))%nat ->
  parse_items_loop tokens (map (fun i => 2 * i)%nat (seq k n)) acc =
  match int_all (drop (2 * k) tokens) with
  | Some vals => Ok (acc ++ pair_up vals)
  | None => Raise ValueError
  end.
Proof.
  induction n as [|n IH]; intros k acc Hlen; cbn [seq map parse_items_loop].
  - rewrite drop_ge by lia. cbn. by rewrite app_nil_r.
  - destruct (lookup_lt_is_Some_2 tokens (2 * k)) as [a Ha]; [lia |].
    destruct (lookup_lt_is_Some_2 tokens (2 * k + 1)) as [b Hb]; [lia |].
    unfold getitem. rewrite Ha. cbn [bind].
    rewrite (drop_S _ a _ Ha).
    replace (S (2 * k)) with (2 * k + 1)%nat by lia.
    rewrite (drop_S _ b _ Hb).
    replace (S (2 * k + 1)) with (2 * S k)%nat by lia.
    cbn [int_all].
    destruct (int_total a) as [[va Hva] | Hva]; rewrite Hva; cbn [bind]; [| done].
    rewrite Hb. cbn [bind].
    destruct (int_total b) as [[vb Hvb] | Hvb]; rewrite Hvb; cbn [bind]; [| done].
    rewrite IH by lia.
    destruct (int_all (drop (2 * S k) tokens)) as [vals|]; cbn; [| done].
    by rewrite <- app_assoc.
Qed.

Lemma range_step2_even n : range_step2 (2 * n) = map (fun i => 2 * i)%nat (seq 0 n).
Proof.
  unfold range_step2. do 2 f_equal.
  replace (2 * n + 1)%nat with (S (2 * n)) by lia.
  rewrite Nat.div2_succ_double. done.
Qed.

Lemma parse_inventory_line_outcome line line_no :
  parse_inventory_line line line_no =
  Ok (if bool_decide (strip line = []) then None else parse_outcome (strip line) line_no).
Proof.
  unfold parse_inventory_line, parse_outcome. cbn zeta.
  case_bool_decide as Hblank; [done |].
  destruct (inventory_line_match (strip line)) as [[[[g1 g2] g3] g4]|] eqn:Em; [| done].
  apply inventory_line_match_spec in Em.
  destruct Em as (w1 & w2 & w3 & w4 & w5 & _ & Hd1 & Hd3 & _).
  destruct (int_all_digits g1 Hd1) as (ts & -> & _).
  destruct (int_all_digits g3 Hd3) as (pid & -> & _).
  cbn [bind except_ValueError].
  destruct (Nat.even (length (items_tokens_of g4))) eqn:Eev.
  - apply Nat.even_spec in Eev as [n Hn].
    assert ((length (items_tokens_of g4) mod 2 =? 0)%nat = true) as ->.
    { apply Nat.eqb_eq. rewrite Hn, Nat.mul_comm. by apply Nat.Div0.mod_mul. }
    cbn [negb]. rewrite Hn, range_step2_even, parse_items_loop_spec by lia.
    change (drop (2 * 0) (items_tokens_of g4)) with (items_tokens_of g4).
    by destruct (int_all (items_tokens_of g4)).
  - assert ((length (items_tokens_of g4) mod 2 =? 0)%nat = false) as ->; [| done].
    apply Nat.eqb_neq. intros Hmod.
    apply Nat.Div0.mod_divides in Hmod as [c Hc].
    rewrite Hc, Nat.even_mul in Eev. done.
Qed.

End InventoryLine.

(** *** Claims on the inventory parser *)

Section ParserClaims.

Import Parsers Props.


Lemma parse_outcome_Some text line_no e :
  parse_outcome text line_no = Some e ->
  exists g1 g2 g3 g4 vals,
    line_format text g1 g2 g3 g4 /\
    int g1 = Ok (inv_timestamp e) /\ 0 <= inv_timestamp e /\
    int g3 = Ok (inv_player_id e) /\ 0 <= inv_player_id e /\
    inv_action e = g2 /\
    Nat.Even (length (items_tokens_of g4)) /\
    Forall2 (fun tok v => int tok = Ok v) (items_tokens_of g4) vals /\
    inv_items e = pair_up vals /\
    inv_line_no e = line_no /\ inv_raw_line e = text.
Proof.
  unfold parse_outcome.
  destruct (inventory_line_match text) as [[[[g1 g2] g3] g4]|] eqn:Em; [| done].
  apply inventory_line_match_spec in Em.
  pose proof Em as (w1 & w2 & w3 & w4 & w5 & _ & Hd1 & Hd3 & _).
  destruct (int_all_digits g1 Hd1) as (ts & Hts & Hts0).
  destruct (int_all_digits g3 Hd3) as (pid & Hpid & Hpid0).
  rewrite Hts, Hpid.
  destruct (Nat.even (length (items_tokens_of g4))) eqn:Eev; [| done].
  destruct (int_all (items_tokens_of g4)) as [vals|] eqn:Ea; [| done].
  intros H. simplify_eq. exists g1, g2, g3, g4, vals. cbn.
  split_and!; try done; [by apply Nat.even_spec | by apply int_all_Some].
Qed.



Lemma pair_up_Forall (P : Z -> Prop) n : forall vals,
  (length vals <= n)%nat -> Forall P vals ->
  Forall (fun p => P (fst p) /\ P (snd p)) (pair_up vals).
Proof.
  induction n as [|n IH]; intros vals Hlen Hvals.
  - destruct vals; [constructor | cbn in Hlen; lia].
  - destruct vals as [|a [|b vals]]; cbn [pair_up]; try constructor.
    + apply Forall_cons in Hvals as [Ha Hvals]. apply Forall_cons in Hvals as [Hb _]. done.
    + apply IH; [cbn in Hlen; lia |].
      apply Forall_cons in Hvals as [_ Hvals]. by apply Forall_cons in Hvals as [_ ?].
Qed.

(** C5, as the code has it.  The timestamp and the player of a returned
    event are never negative; when the line holds no minus sign, neither is
    any item type or amount of its pairs. *)
Theorem amounts_nonnegative_without_minus (line : str) (line_no : option nat)
    (e : InventoryEvent) :
  parse_inventory_line line line_no = Ok (Some e) ->
  0 <= inv_timestamp e /\ 0 <= inv_player_id e /\
  ("-"%char ∉ line -> Forall (fun p => 0 <= fst p /\ 0 <= snd p) (inv_items e)).
Proof.
  rewrite parse_inventory_line_outcome. intros H.
  case_bool_decide as Hblank; [done |].
  assert (parse_outcome (strip line) line_no = Some e) as Ho by by simplify_eq.
  destruct (parse_outcome_Some _ _ _ Ho)
    as (g1 & g2 & g3 & g4 & vals & Hf & _ & Hts & _ & Hpid & _ & _ & Hvals & -> & _).
  split; [done |]. split; [done |]. intros Hminus.
  apply (pair_up_Forall (fun v => 0 <= v) (length vals)); [done |].
  assert ("-"%char ∉ g4) as Hg4.
  { intros Hin. apply Hminus, strip_subseteq.
    destruct Hf as (w1 & w2 & w3 & w4 & w5 & -> & _). set_solver. }
  assert (forall tok, tok ∈ items_tokens_of g4 -> "-"%char ∉ tok) as Htoks.
  { intros tok Htok Hin. by apply Hg4, (items_tokens_subseteq g4 tok). }
  clear -Hvals Htoks. induction Hvals as [|tok v toks vals Hv Hrest IH]; [constructor |].
  constructor.
  - apply (int_no_minus tok); [| done]. apply Htoks. by left.
  - apply IH. intros tok' Hin. apply Htoks. by right.
Qed.

Lemma amounts_nonnegative_without_minus_witness :
  parse_inventory_line (lit "[1000] ITEM_ADD | 7, (5, 3)") (Some 1%nat)
    = Ok (Some (mkInventoryEvent 1000 7 ITEM_ADD [(5, 3)] (Some 1%nat)
                  (lit "[1000] ITEM_ADD | 7, (5, 3)"))) /\
  "-"%char ∉ lit "[1000] ITEM_ADD | 7, (5, 3)" /\
  Forall (fun p => 0 <= fst p /\ 0 <= snd p) [(5, 3)].
Proof.
  assert ("-"%char ∉ lit "[1000] ITEM_ADD | 7, (5, 3)") as Hminus.
  { apply (bool_decide_unpack _). vm_compute. exact I. }
  split; [reflexivity |]. split; [exact Hminus |].
  exact (proj2 (proj2 (amounts_nonnegative_without_minus
                  (lit "[1000] ITEM_ADD | 7, (5, 3)") (Some 1%nat)
                  (mkInventoryEvent 1000 7 ITEM_ADD [(5, 3)] (Some 1%nat)
                     (lit "[1000] ITEM_ADD | 7, (5, 3)")) eq_refl)) Hminus).
Defined.

(** C5, as stated, fails on a signed amount: the token [-3] is an integer
    for [int], and the line is accepted with the pair [(5, -3)]. *)
Lemma negative_amount_accepted :
  exists e,
    parse_inventory_line (lit "[1000] ITEM_REMOVE | 7, (5, -3)") (Some 1%nat) = Ok (Some e) /\
    inv_items e = [(5, -3)] /\
    Exists (fun p => snd p < 0) (inv_items e).
Proof.
  eexists. split; [vm_compute; reflexivity |]. split; [reflexivity |].
  apply Exists_cons_hd. cbn. lia.
Qed.

End ParserClaims.

(** ** Properties of [src/combiner.py] *)

Section SmallHeaps.

Import Heapq.

Context {A : Type} (lt : A -> A -> bool).

Lemma heappush_empty x : heappush lt [] x = [x].
Proof. reflexivity. Qed.

Lemma heappush_one a x : heappush lt [a] x = if lt x a then [x; a] else [a; x].
Proof. unfold heappush, _siftdown. cbn. by destruct (lt x a). Qed.

Lemma heappop_empty : heappop lt [] = None.
Proof. reflexivity. Qed.

Lemma heappop_one a : heappop lt [a] = Some (a, []).
Proof. reflexivity. Qed.

Lemma heappop_two a b : heappop lt [a; b] = Some (a, [b]).
Proof. reflexivity. Qed.

End SmallHeaps.

Section MergeSteps.

Import Parsers Heapq Combiner Props.

Variable fi : InventoryEvent -> str.
Variable fm : MoneyEvent -> str.

Lemma entry_lt_inv_mon io i mo m :
  entry_lt (inv_entry io i) (mon_entry mo m) = (inv_timestamp i <=? mon_timestamp m).
Proof.
  unfold entry_lt, inv_entry, mon_entry. cbn.
  destruct (inv_timestamp i =? mon_timestamp m) eqn:E; cbn; lia.
Qed.

Lemma entry_lt_mon_inv io i mo m :
  entry_lt (mon_entry mo m) (inv_entry io i) = negb (inv_timestamp i <=? mon_timestamp m).
Proof.
  unfold entry_lt, inv_entry, mon_entry. cbn.
  destruct (mon_timestamp m =? inv_timestamp i) eqn:E; cbn; lia.
Qed.

Lemma source_inventory io i : bool_decide (e_source (inv_entry io i) = INVENTORY) = true.
Proof. reflexivity. Qed.

Lemma source_money mo m : bool_decide (e_source (mon_entry mo m) = INVENTORY) = false.
Proof. reflexivity. Qed.

(** The heap of the two heads gives its smaller head first. *)
Lemma heappop_pending io inv mo mon x rest :
  merge_step io inv mo mon = Some (x, rest) ->
  heappop entry_lt (pending_heap (head_entry inv_entry io inv) (head_entry mon_entry mo mon)) =
  Some (x, match e_event x with
           | InvEv _ => pending_heap None (head_entry mon_entry mo mon)
           | MonEv _ => pending_heap (head_entry inv_entry io inv) None
           end).
Proof.
  unfold merge_step. destruct inv as [|i inv], mon as [|m mon]; cbn [head_entry pending_heap].
  - done.
  - intros H. by simplify_eq.
  - intros H. by simplify_eq.
  - rewrite entry_lt_inv_mon.
    destruct (inv_timestamp i <=? mon_timestamp m); intros H; by simplify_eq.
Qed.

(** Pushing the next head of a stream next to the head of the other. *)
Lemma heappush_pending_inv io i mo mon :
  heappush entry_lt (pending_heap None (head_entry mon_entry mo mon)) (inv_entry io i) =
  pending_heap (Some (inv_entry io i)) (head_entry mon_entry mo mon).
Proof.
  destruct mon as [|m mon]; cbn [head_entry pending_heap]; [done |].
  by rewrite heappush_one.
Qed.

Lemma heappush_pending_mon io inv mo m :
  heappush entry_lt (pending_heap (head_entry inv_entry io inv) None) (mon_entry mo m) =
  pending_heap (head_entry inv_entry io inv) (Some (mon_entry mo m)).
Proof.
  destruct inv as [|i inv]; cbn [head_entry pending_heap]; [done |].
  rewrite heappush_one, entry_lt_mon_inv, entry_lt_inv_mon.
  by destruct (inv_timestamp i <=? mon_timestamp m).
Qed.

Lemma seed_holds_heads inv mon : holds_heads (seed inv mon) 0 inv 0 mon.
Proof.
  unfold seed, holds_heads.
  destruct inv as [|i inv], mon as [|m mon]; cbn [next]; cbn [heap inventory_iter money_iter
    inventory_order money_order head_entry pending_heap tail order_after]; split_and!; try done.
  rewrite heappush_empty. apply (heappush_pending_mon 0 (i :: inv) 0 m).
Qed.

(** One iteration of the loop is one step of the two-way merge. *)
Lemma loop_body_step st io inv mo mon x io' inv' mo' mon' :
  holds_heads st io inv mo mon ->
  merge_step io inv mo mon = Some (x, (io', inv', mo', mon')) ->
  exists st',
    loop_body fi fm st = Ok st' /\
    holds_heads st' io' inv' mo' mon' /\
    emitted st' = emitted st ++ [x] /\
    handle st' = handle st ++ [format_entry fi fm x] /\
    inventory_count st' + Z.of_nat (length inv') = inventory_count st + Z.of_nat (length inv) /\
    money_count st' + Z.of_nat (length mon') = money_count st + Z.of_nat (length mon).
Proof.
  intros (Hheap & Hii & Hmi & Hio & Hmo) Hstep.
  unfold loop_body. rewrite Hheap, (heappop_pending _ _ _ _ _ _ Hstep).
  unfold merge_step in Hstep.
  destruct inv as [|i inv], mon as [|m mon]; try done.
  - simplify_eq. rewrite source_money.
    cbn [e_event mon_entry as_money bind]. rewrite Hmi. cbn [tail].
    destruct mon' as [|m' mon']; cbn [next]; eexists; (split; [reflexivity |]);
      unfold holds_heads; cbn [heap inventory_iter money_iter inventory_order money_order
        emitted handle inventory_count money_count head_entry pending_heap tail order_after
        format_entry e_event length];
      rewrite ?Hio, ?Hmo, ?Hii, ?heappush_empty; cbn [order_after tail]; split_and!; try done; lia.
  - simplify_eq. rewrite source_inventory.
    cbn [e_event inv_entry as_inventory bind]. rewrite Hii. cbn [tail].
    destruct inv' as [|i' inv']; cbn [next]; eexists; (split; [reflexivity |]);
      unfold holds_heads; cbn [heap inventory_iter money_iter inventory_order money_order
        emitted handle inventory_count money_count head_entry pending_heap tail order_after
        format_entry e_event length];
      rewrite ?Hio, ?Hmo, ?Hmi, ?heappush_empty; cbn [order_after tail]; split_and!; try done; lia.
  - destruct (inv_timestamp i <=? mon_timestamp m) eqn:Ecmp; simplify_eq.
    + rewrite source_inventory. cbn [e_event inv_entry as_inventory bind]. rewrite Hii. cbn [tail].
      destruct inv' as [|i' inv']; cbn [next]; eexists; (split; [reflexivity |]);
        unfold holds_heads; cbn [heap inventory_iter money_iter inventory_order money_order
          emitted handle inventory_count money_count tail order_after
          format_entry e_event length];
        rewrite ?Hio, ?Hmo, ?Hmi; cbn [order_after tail]; split_and!; try done; try lia.
    + rewrite source_money. cbn [e_event mon_entry as_money bind]. rewrite Hmi. cbn [tail].
      destruct mon' as [|m' mon']; cbn [next]; eexists; (split; [reflexivity |]);
        unfold holds_heads; cbn [heap inventory_iter money_iter inventory_order money_order
          emitted handle inventory_count money_count tail order_after
          format_entry e_event length];
        rewrite ?Hio, ?Hmo, ?Hii; cbn [order_after tail]; split_and!; try done; try lia.
      apply (heappush_pending_mon io' (i :: inv) (mo + 1) m').
Qed.

End MergeSteps.

Section MergeLoop.

Import Parsers Heapq Combiner Props.

Variable fi : InventoryEvent -> str.
Variable fm : MoneyEvent -> str.

Lemma two_way_merge_nil io mo : two_way_merge io [] mo [] = [].
Proof. reflexivity. Qed.


Lemma merge_step_None io inv mo mon :
  merge_step io inv mo mon = None <-> inv = [] /\ mon = [].
Proof.
  unfold merge_step. destruct inv as [|i inv], mon as [|m mon]; try done.
  - split; [done | by intros [? ?]].
  - split; [done | by intros [? ?]].
  - destruct (_ <=? _); (split; [done | by intros [? ?]]).
Qed.

Lemma holds_heads_heap_nil st io inv mo mon :
  holds_heads st io inv mo mon -> (heap st = [] <-> inv = [] /\ mon = []).
Proof.
  intros (-> & _). destruct inv as [|i inv], mon as [|m mon]; cbn [head_entry pending_heap].
  - done.
  - split; [done | by intros [? ?]].
  - split; [done | by intros [? ?]].
  - destruct (entry_lt _ _); (split; [done | by intros [? ?]]).
Qed.




(** Every state of the loop holds the heads of what is left to emit, and a
    stream that has run dry stays so. *)
Lemma reaches_holds_heads st st' :
  reaches fi fm st st' ->
  forall io inv mo mon,
    holds_heads st io inv mo mon ->
    exists io' inv' mo' mon',
      holds_heads st' io' inv' mo' mon' /\
      (inv = [] -> inv' = []) /\ (mon = [] -> mon' = []).
Proof.
  induction 1 as [st | st st1 st2 Hne Hbody Hreach IH]; intros io inv mo mon Hst.
  - by exists io, inv, mo, mon.
  - destruct (merge_step io inv mo mon) as [[x [[[io' inv'] mo'] mon']]|] eqn:Estep.
    + destruct (loop_body_step fi fm _ _ _ _ _ _ _ _ _ _ Hst Estep) as (st1' & Hbody' & Hst1 & _).
      rewrite Hbody in Hbody'. simplify_eq.
      destruct (IH _ _ _ _ Hst1) as (io2 & inv2 & mo2 & mon2 & Hst2 & Hi & Hm).
      exists io2, inv2, mo2, mon2. split; [done |].
      unfold merge_step in Estep.
      destruct inv as [|i inv], mon as [|m mon]; try done.
      * simplify_eq. split; [auto | done].
      * simplify_eq. split; [done | auto].
    + apply merge_step_None in Estep as [-> ->].
      exfalso. apply Hne. by apply (holds_heads_heap_nil _ _ _ _ _ Hst).
Qed.

Lemma reaches_trans st1 st2 st3 :
  reaches fi fm st1 st2 -> reaches fi fm st2 st3 -> reaches fi fm st1 st3.
Proof.
  induction 1 as [| st st' st'' Hne Hbody Hreach IH]; [done |].
  intros H. apply (reaches_next fi fm st st' st3); auto.
Qed.

(** What a heap of heads holds. *)
Lemma count_pending io inv mo mon :
  let h := pending_heap (head_entry inv_entry io inv) (head_entry mon_entry mo mon) in
  count_source INVENTORY h = (if inv is [] then 0 else 1)%nat /\
  count_source MONEY h = (if mon is [] then 0 else 1)%nat /\
  (forall i j a b, i ≠ j -> h !! i = Some a -> h !! j = Some b -> e_priority a ≠ e_priority b).
Proof.
  destruct inv as [|i inv], mon as [|m mon]; cbn [head_entry pending_heap];
    try destruct (entry_lt _ _); (split; [reflexivity |]); (split; [reflexivity |]);
    intros [|[|k]] [|[|l]] a b Hne Ha Hb; cbn in *; by simplify_eq.
Qed.

End MergeLoop.

Section TwoWayMerge.

Import Parsers Heapq Combiner Props.












End TwoWayMerge.

Section Iterators.

Import Parsers Props.

Lemma parse_money_line_total line line_no : exists o, parse_money_line line line_no = Ok o.
Proof.
  unfold parse_money_line. cbn zeta.
  case_bool_decide; [eauto |].
  destruct (splitn "|" (strip line) 2) as [|a [|b [|c [|? ?]]]]; eauto.
  destruct (splitn "," c 2) as [|x [|y [|z [|? ?]]]]; eauto.
  destruct (negb _); [eauto |].
  destruct (int_total a) as [[va ->] | ->]; cbn; [| eauto].
  destruct (int_total b) as [[vb ->] | ->]; cbn; [| eauto].
  destruct (int_total y) as [[vy ->] | ->]; cbn; eauto.
Qed.

Lemma iter_inventory_events_total lines : forall n,
  exists evs, iter_inventory_events_from n lines = Ok evs.
Proof.
  induction lines as [|line lines IH]; intros n; cbn [iter_inventory_events_from]; [eauto |].
  rewrite parse_inventory_line_outcome. cbn [Py.bind].
  destruct (IH (S n)) as [evs ->]. cbn. eauto.
Qed.

Lemma iter_money_events_total lines : forall n,
  exists evs, iter_money_events_from n lines = Ok evs.
Proof.
  induction lines as [|line lines IH]; intros n; cbn [iter_money_events_from]; [eauto |].
  destruct (parse_money_line_total line (Some n)) as [o ->]. cbn [Py.bind].
  destruct (IH (S n)) as [evs ->]. cbn. eauto.
Qed.

End Iterators.

(** *** Claims on the merge *)

Section MergeClaims.

Import Parsers Heapq Combiner Props.

Variable fi : InventoryEvent -> str.
Variable fm : MoneyEvent -> str.


(** No two entries of a heap of the loop have the same priority, so that
    [entry_lt] is decided by the timestamp and the priority. *)
Lemma heap_priorities_differ inv mon st i j a b :
  reaches fi fm (seed inv mon) st ->
  i ≠ j -> heap st !! i = Some a -> heap st !! j = Some b ->
  e_priority a ≠ e_priority b.
Proof.
  intros Hreach.
  destruct (reaches_holds_heads fi fm _ _ Hreach 0 inv 0 mon (seed_holds_heads inv mon))
    as (io & inv' & mo & mon' & (Hheap & _) & _).
  rewrite Hheap. apply count_pending.
Qed.


End MergeClaims.

Section MergeRuns.

Import Parsers Heapq Combiner Props.

Variable fi : InventoryEvent -> str.
Variable fm : MoneyEvent -> str.






End MergeRuns.

(** *** The claims on the merge at the example of the specification: an
    inventory event and a money event, both at time 100 *)

Section MergeExample.

Import Parsers Heapq Combiner Props.



(** The inventory event is emitted first. *)
Example inventory_first_at_equal_time :
  exists st,
    merge_events (fun _ => lit "inventory line") (fun _ => lit "money line")
      [mkInventoryEvent 100 1 ITEM_ADD [(5, 3)] None []]
      [mkMoneyEvent 100 1 MONEY_ADD 50 [] None []] = Ok (Some st) /\
    map e_source (emitted st) = [INVENTORY; MONEY] /\
    handle st = [lit "inventory line"; lit "money line"].
Proof. eexists. split; [vm_compute; reflexivity |]. split; reflexivity. Qed.

End MergeExample.

(** ** The end-to-end examples of the specification *)

Section EndToEnd.

Import Parsers State Combiner Props.

(** [[1000] ITEM_ADD | 7, (5, 3)] at line 1, applied to a fresh state. *)
Example inventory_line_end_to_end :
  exists e,
    parse_inventory_line (lit "[1000] ITEM_ADD | 7, (5, 3)") (Some 1%nat) = Ok (Some e) /\
    inv_timestamp e = 1000 /\ inv_player_id e = 7 /\ inv_items e = [(5, 3)] /\
    let gs := apply_inventory_event (GameState_init ∅ None) e in
    player_count gs 7 5 = 3 /\
    getd (owner_counts (item_stats gs)) 5 = 1 /\
    getd (mentions (item_stats gs)) 5 = 1 /\
    _first_seen_order (item_stats gs) = [(1000, 5)].
Proof.
  eexists. split; [vm_compute; reflexivity |].
  cbn zeta. split_and!; vm_compute; reflexivity.
Qed.

(** [100|1|MONEY_ADD,50,initial] then [200|1|MONEY_REMOVE,20,purchase]. *)
Example money_lines_end_to_end :
  exists e1 e2 p,
    parse_money_line (lit "100|1|MONEY_ADD,50,initial") (Some 1%nat) = Ok (Some e1) /\
    parse_money_line (lit "200|1|MONEY_REMOVE,20,purchase") (Some 2%nat) = Ok (Some e2) /\
    players (apply_money_event (apply_money_event (GameState_init ∅ None) e1) e2) !! 1 = Some p /\
    money p = 30 /\ first_event_ts p = Some 100 /\ last_event_ts p = Some 200.
Proof.
  do 3 eexists. split; [vm_compute; reflexivity |]. split; [vm_compute; reflexivity |].
  split; [vm_compute; reflexivity |]. split_and!; reflexivity.
Qed.

(** A timestamp that is no integer rejects the line. *)
Example malformed_timestamp_rejected :
  parse_inventory_line (lit "[abc] ITEM_ADD | 1, (2,3)") (Some 1%nat) = Ok None /\
  iter_inventory_events [lit "[abc] ITEM_ADD | 1, (2,3)"] = Ok [].
Proof. split; vm_compute; reflexivity. Qed.

End EndToEnd.

(** ** More on [src/state.py] *)

Section PlayerLedger.

Import Parsers State Combiner Props Ledger.

Lemma registry_get_lookup (reg : gmap Z Player) pid :
  fst (registry_get reg pid) !! pid = Some (snd (registry_get reg pid)).
Proof.
  unfold registry_get. destruct (reg !! pid) eqn:E; cbn; [done |].
  apply lookup_insert_eq.
Qed.

Lemma registry_get_other (reg : gmap Z Player) pid pid' :
  pid ≠ pid' -> fst (registry_get reg pid) !! pid' = reg !! pid'.
Proof.
  intros Hne. unfold registry_get. destruct (reg !! pid) eqn:E; cbn; [done |].
  by apply lookup_insert_ne.
Qed.

(** The players of the state after one event. *)
Lemma apply_event_players gs ev pid :
  players (apply_event gs ev) !! pid =
  if bool_decide (event_player ev = pid)
  then Some (apply_to_player (snd (registry_get (players gs) pid)) ev)
  else players gs !! pid.
Proof.
  destruct ev as [e | e]; cbn [apply_event event_player apply_to_player].
  - unfold apply_inventory_event.
    destruct (registry_get (players gs) (inv_player_id e)) as [reg p] eqn:Eg.
    destruct (apply_inventory p _ _ _) as [p' ch] eqn:Ea. cbn [players].
    case_bool_decide as Hpid.
    + subst pid. rewrite lookup_insert_eq, Eg. cbn [snd]. by rewrite Ea.
    + rewrite lookup_insert_ne by done.
      pose proof (registry_get_other (players gs) _ _ Hpid) as H. by rewrite Eg in H.
  - unfold apply_money_event.
    destruct (registry_get (players gs) (mon_player_id e)) as [reg p] eqn:Eg. cbn [players].
    case_bool_decide as Hpid.
    + subst pid. rewrite lookup_insert_eq, Eg. done.
    + rewrite lookup_insert_ne by done.
      pose proof (registry_get_other (players gs) _ _ Hpid) as H. by rewrite Eg in H.
Qed.

Lemma registry_get_present (reg : gmap Z Player) pid p :
  reg !! pid = Some p -> snd (registry_get reg pid) = p.
Proof. intros H. unfold registry_get. by rewrite H. Qed.

Lemma apply_events_players evs : forall gs pid,
  players (apply_events gs evs) !! pid =
  match events_of pid evs with
  | [] => players gs !! pid
  | _ :: _ =>
      Some (fold_left apply_to_player (events_of pid evs)
              (snd (registry_get (players gs) pid)))
  end.
Proof.
  unfold apply_events, events_of.
  induction evs as [|ev evs IH]; intros gs pid; cbn [fold_left]; [done |].
  rewrite IH. rewrite filter_cons.
  pose proof (apply_event_players gs ev pid) as Hev.
  destruct (decide (event_player ev = pid)) as [Hpid | Hpid].
  - rewrite bool_decide_eq_true_2 in Hev by done.
    rewrite (registry_get_present _ _ _ Hev). cbn [fold_left].
    by destruct (filter _ evs).
  - rewrite bool_decide_eq_false_2 in Hev by done.
    unfold registry_get. rewrite Hev. by destruct (players gs !! pid).
Qed.

End PlayerLedger.

Section PlayerFolds.

Import Parsers State Combiner Props Ledger.

Lemma apply_money_money p action amount ts :
  money (apply_money p action amount ts) =
  money p + (if bool_decide (action = MONEY_ADD) then amount
             else if bool_decide (action = MONEY_REMOVE) then - amount else 0).
Proof.
  unfold apply_money. repeat case_bool_decide; cbn; lia.
Qed.

Lemma apply_money_inventory p action amount ts :
  inventory (apply_money p action amount ts) = inventory p.
Proof. unfold apply_money. by repeat case_bool_decide. Qed.

Lemma apply_inventory_money p action items ts :
  money (fst (apply_inventory p action items ts)) = money p.
Proof.
  unfold apply_inventory. cbn [inventory update_activity].
  by destruct (apply_inventory_loop _ items (inventory p) []).
Qed.

Lemma apply_to_player_money p ev : money (apply_to_player p ev) = money p + money_delta ev.
Proof.
  destruct ev as [e | e]; cbn [apply_to_player money_delta].
  - rewrite apply_inventory_money. lia.
  - apply apply_money_money.
Qed.

Lemma apply_to_player_count p ev t :
  get_item_count (apply_to_player p ev) t = get_item_count p t + quantity_delta t ev.
Proof.
  destruct ev as [e | e]; cbn [apply_to_player quantity_delta].
  - apply apply_inventory_count.
  - unfold get_item_count. rewrite apply_money_inventory. lia.
Qed.

Lemma fold_player_money evs : forall p,
  money (fold_left apply_to_player evs p) = money p + sum_list (map money_delta evs).
Proof.
  induction evs as [|ev evs IH]; intros p; cbn [fold_left map sum_list foldr]; [lia |].
  rewrite IH, apply_to_player_money. unfold sum_list. lia.
Qed.

Lemma fold_player_count evs t : forall p,
  get_item_count (fold_left apply_to_player evs p) t
  = get_item_count p t + sum_list (map (quantity_delta t) evs).
Proof.
  induction evs as [|ev evs IH]; intros p; cbn [fold_left map sum_list foldr]; [lia |].
  rewrite IH, apply_to_player_count. unfold sum_list. lia.
Qed.

Lemma apply_to_player_activity p ev :
  first_event_ts (apply_to_player p ev) =
    Some (default (event_timestamp ev) (first_event_ts p)) /\
  last_event_ts (apply_to_player p ev) = Some (event_timestamp ev).
Proof.
  destruct ev as [e | e]; cbn [apply_to_player event_timestamp].
  - unfold apply_inventory. cbn [inventory update_activity].
    destruct (apply_inventory_loop _ _ _ _). cbn. by destruct (first_event_ts p).
  - unfold apply_money. repeat case_bool_decide; cbn; by destruct (first_event_ts p).
Qed.

Lemma fold_player_activity evs : forall p ev,
  first_event_ts (fold_left apply_to_player (ev :: evs) p) =
    Some (default (event_timestamp ev) (first_event_ts p)) /\
  last_event_ts (fold_left apply_to_player (ev :: evs) p) =
    Some (event_timestamp (List.last evs ev)).
Proof.
  induction evs as [|ev' evs IH]; intros p ev.
  - apply apply_to_player_activity.
  - change (fold_left apply_to_player (ev :: ev' :: evs) p)
      with (fold_left apply_to_player (ev' :: evs) (apply_to_player p ev)).
    destruct (IH (apply_to_player p ev) ev') as [-> ->].
    destruct (apply_to_player_activity p ev) as [-> _]. cbn [default].
    split; [done |]. f_equal. f_equal. clear.
    destruct evs as [|x evs]; [done |].
    change (List.last (ev' :: x :: evs) ev) with (List.last (x :: evs) ev).
    revert x. induction evs as [|y evs IH]; intros x; [done |].
    change (List.last (x :: y :: evs) ev') with (List.last (y :: evs) ev').
    change (List.last (x :: y :: evs) ev) with (List.last (y :: evs) ev).
    apply IH.
Qed.

Lemma registry_get_money (reg : gmap Z Player) pid :
  money (snd (registry_get reg pid)) = match reg !! pid with Some p => money p | None => 0 end.
Proof. unfold registry_get. by destruct (reg !! pid). Qed.

Lemma registry_get_first (reg : gmap Z Player) pid :
  first_event_ts (snd (registry_get reg pid)) = reg !! pid ≫= first_event_ts.
Proof. unfold registry_get. by destruct (reg !! pid). Qed.

Lemma sum_list_perm l l' : l ≡ₚ l' -> sum_list l = sum_list l'.
Proof.
  unfold sum_list. induction 1; cbn; lia.
Qed.

Lemma player_money_after_events (gs : GameState) (evs : list event) (pid : Z) :
  player_money (apply_events gs evs) pid =
  player_money gs pid + sum_list (map money_delta (events_of pid evs)).
Proof.
  unfold player_money. rewrite apply_events_players.
  destruct (events_of pid evs) as [|ev evs'] eqn:E.
  - cbn. destruct (players gs !! pid); lia.
  - rewrite fold_player_money, registry_get_money. done.
Qed.

(** The balance of a player after any events: the balance before plus
    the amounts of the money events that name the player, added for
    [MONEY_ADD], subtracted for [MONEY_REMOVE] and ignored for any other
    action; the balance is not clamped and no other event counts.  The
    balance therefore does not depend on the order in which the events are
    processed. *)
Theorem balance_is_sum_of_money_events (gs : GameState) (evs : list event) (pid : Z) :
  player_money (apply_events gs evs) pid =
    player_money gs pid + sum_list (map money_delta (events_of pid evs)) /\
  (forall evs', evs' ≡ₚ evs ->
     player_money (apply_events gs evs') pid = player_money (apply_events gs evs) pid).
Proof.
  split; [apply player_money_after_events |].
  intros evs' Hperm. rewrite !player_money_after_events. f_equal.
  apply sum_list_perm. unfold events_of. by rewrite Hperm.
Qed.

Lemma player_count_after_events (gs : GameState) (evs : list event) (pid t : Z) :
  player_count (apply_events gs evs) pid t =
  player_count gs pid t + sum_list (map (quantity_delta t) (events_of pid evs)).
Proof.
  unfold player_count. rewrite apply_events_players.
  destruct (events_of pid evs) as [|ev evs'] eqn:E.
  - cbn. destruct (players gs !! pid); lia.
  - rewrite fold_player_count, registry_get_count. done.
Qed.

(** The stored count of an item for a player after any events: the count
    before plus the signed amounts of every pair for the item in the
    inventory events that name the player.  The count therefore does not
    depend on the order in which the events are processed. *)
Theorem count_is_sum_of_inventory_events (gs : GameState) (evs : list event) (pid t : Z) :
  player_count (apply_events gs evs) pid t =
    player_count gs pid t + sum_list (map (quantity_delta t) (events_of pid evs)) /\
  (forall evs', evs' ≡ₚ evs ->
     player_count (apply_events gs evs') pid t = player_count (apply_events gs evs) pid t).
Proof.
  split; [apply player_count_after_events |].
  intros evs' Hperm. rewrite !player_count_after_events. f_equal.
  apply sum_list_perm. unfold events_of. by rewrite Hperm.
Qed.

(** The activity of a player named by at least one event: the last
    timestamp is that of the last such event in processing order, whatever
    its log and whether or not it is the largest; the first timestamp is the
    one recorded before, if any, and else that of the first such event. *)
Theorem activity_first_and_last (gs : GameState) (evs : list event) (pid : Z)
    (ev : event) (rest : list event) :
  events_of pid evs = ev :: rest ->
  exists p,
    players (apply_events gs evs) !! pid = Some p /\
    last_event_ts p = Some (event_timestamp (List.last rest ev)) /\
    first_event_ts p =
      Some (default (event_timestamp ev) (players gs !! pid ≫= first_event_ts)).
Proof.
  intros E. rewrite apply_events_players, E. eexists. split; [reflexivity |].
  destruct (fold_player_activity rest (snd (registry_get (players gs) pid)) ev) as [-> ->].
  by rewrite registry_get_first.
Qed.

Lemma activity_first_and_last_witness :
  events_of 7 [MonEv (mkMoneyEvent 300 7 MONEY_ADD 5 [] None []);
               InvEv (mkInventoryEvent 200 8 ITEM_ADD [(5, 3)] None []);
               MonEv (mkMoneyEvent 100 7 MONEY_REMOVE 2 [] None [])]
    = [MonEv (mkMoneyEvent 300 7 MONEY_ADD 5 [] None []);
       MonEv (mkMoneyEvent 100 7 MONEY_REMOVE 2 [] None [])] /\
  exists p,
    players (apply_events (GameState_init ∅ None)
               [MonEv (mkMoneyEvent 300 7 MONEY_ADD 5 [] None []);
                InvEv (mkInventoryEvent 200 8 ITEM_ADD [(5, 3)] None []);
                MonEv (mkMoneyEvent 100 7 MONEY_REMOVE 2 [] None [])]) !! 7 = Some p /\
    last_event_ts p = Some 100 /\
    first_event_ts p = Some 300.
Proof.
  split; [reflexivity |].
  destruct (activity_first_and_last (GameState_init ∅ None)
              [MonEv (mkMoneyEvent 300 7 MONEY_ADD 5 [] None []);
               InvEv (mkInventoryEvent 200 8 ITEM_ADD [(5, 3)] None []);
               MonEv (mkMoneyEvent 100 7 MONEY_REMOVE 2 [] None [])] 7
              (MonEv (mkMoneyEvent 300 7 MONEY_ADD 5 [] None []))
              [MonEv (mkMoneyEvent 100 7 MONEY_REMOVE 2 [] None [])] eq_refl)
    as (p & Hp & Hlast & Hfirst).
  exists p. split; [exact Hp |]. split; [exact Hlast | exact Hfirst].
Defined.

Lemma events_of_nil pid evs : events_of pid evs = [] <-> pid ∉ map event_player evs.
Proof.
  unfold events_of. induction evs as [|x l IH]; cbn [map].
  - split; [intros _; apply not_elem_of_nil | done].
  - rewrite filter_cons, not_elem_of_cons. case_decide as Hx.
    + split; [done | intros [? _]; congruence].
    + rewrite IH. split; [intros ?; split; [congruence | done] | by intros [_ ?]].
Qed.

Lemma players_dom_after_events (gs : GameState) (evs : list event) :
  dom (players (apply_events gs evs)) = dom (players gs) ∪ list_to_set (map event_player evs).
Proof.
  apply set_eq. intros k. rewrite elem_of_dom, apply_events_players.
  rewrite elem_of_union, elem_of_dom, elem_of_list_to_set.
  destruct (events_of k evs) as [|x l] eqn:E.
  - apply events_of_nil in E. tauto.
  - split; [intros _; right | eauto].
    destruct (decide (k ∈ map event_player evs)) as [? | Hnot]; [done |].
    apply events_of_nil in Hnot. congruence.
Qed.

(** Events leave alone the players that they do not name, and no event
    removes a player: the registry after the events holds the players it
    held before and those that the events name; the record of a player
    depends on the events that name it only. *)
Theorem events_touch_named_players_only (gs : GameState) (evs evs' : list event) (pid : Z) :
  dom (players (apply_events gs evs)) = dom (players gs) ∪ list_to_set (map event_player evs) /\
  (pid ∉ map event_player evs -> players (apply_events gs evs) !! pid = players gs !! pid) /\
  (events_of pid evs = events_of pid evs' ->
   players (apply_events gs evs) !! pid = players (apply_events gs evs') !! pid).
Proof.
  split_and!.
  - apply players_dom_after_events.
  - intros Hnot. apply events_of_nil in Hnot. by rewrite apply_events_players, Hnot.
  - intros E. by rewrite !apply_events_players, E.
Qed.

End PlayerFolds.

Section Statistics.

Import Parsers State Combiner Props Ledger.

Lemma last_amount_Some t items : is_Some (last_amount t items) <-> t ∈ map fst items.
Proof.
  induction items as [|[id am] items IH]; cbn [last_amount map fst].
  - split; [by intros [? ?] | intros H; by apply elem_of_nil in H].
  - rewrite elem_of_cons, <- IH. destruct (last_amount t items) as [a|].
    + split; [right | ]; eauto.
    + destruct (id =? t) eqn:E.
      * split; [intros _; left; lia | eauto].
      * split; [by intros [? ?] | intros [? | [? ?]]; [lia | done]].
Qed.

(** From any state, the mentions of an item grow by the number of inventory
    events that name it: one per event, however many pairs of the event name
    the item and whatever their amounts; money events add none. *)
Theorem mentions_count_naming_events (gs : GameState) (evs : list event) (t : Z) :
  getd (mentions (item_stats (apply_events gs evs))) t =
  getd (mentions (item_stats gs)) t + Z.of_nat (length (filter (names_item t) evs)).
Proof.
  unfold apply_events. revert gs.
  induction evs as [|ev evs IH]; intros gs; cbn [fold_left]; [cbn; lia |].
  rewrite IH, filter_cons. destruct ev as [e | e]; cbn [apply_event].
  - pose proof (apply_inventory_event_view gs e t) as Hview.
    pose proof (last_amount_Some t (inv_items e)) as Hsome.
    destruct (last_amount t (inv_items e)) as [a|].
    + cbn zeta in Hview. apply (f_equal snd) in Hview. unfold view in Hview; cbn [snd] in Hview.
      rewrite Hview. rewrite decide_True by (cbn; apply Hsome; eauto). cbn [length]. lia.
    + apply (f_equal snd) in Hview. unfold view in Hview; cbn [snd] in Hview. rewrite Hview.
      rewrite decide_False; [lia |]. cbn. intros Hin. apply Hsome in Hin. by destruct Hin.
  - rewrite apply_money_event_stats. rewrite decide_False by (cbn; tauto). lia.
Qed.

End Statistics.

Section Holders.

Import Parsers State Combiner Props Ledger.

Lemma holders_insert (reg : gmap Z Player) pid p' t :
  Z.of_nat (size (filter (holds t) (<[pid := p']> reg))) =
  Z.of_nat (size (filter (holds t) reg))
  + (if 0 <? get_item_count p' t then 1 else 0)
  - (if 0 <? match reg !! pid with Some p => get_item_count p t | None => 0 end then 1 else 0).
Proof.
  rewrite map_filter_insert.
  assert (forall p, reg !! pid = Some p -> 0 < get_item_count p t ->
                    filter (holds t) reg !! pid = Some p) as Hin.
  { intros p Hp Hc. by apply map_lookup_filter_Some. }
  assert (forall p, reg !! pid = Some p -> ~ 0 < get_item_count p t ->
                    filter (holds t) reg !! pid = None) as Hout.
  { intros p Hp Hc. apply eq_None_not_Some. intros [q Hq].
    apply map_lookup_filter_Some in Hq as [Hq Hh]. unfold holds in Hh. cbn in Hh.
    by simplify_eq. }
  assert (reg !! pid = None -> filter (holds t) reg !! pid = None) as Habs.
  { intros Hp. apply eq_None_not_Some. intros [q Hq].
    apply map_lookup_filter_Some in Hq as [Hq _]. congruence. }
  case_decide as Hnew; unfold holds in Hnew; cbn [snd] in Hnew.
  - rewrite map_size_insert.
    destruct (0 <? get_item_count p' t) eqn:E; [| lia].
    destruct (reg !! pid) as [p|] eqn:Hp.
    + destruct (0 <? get_item_count p t) eqn:Ep.
      * rewrite (Hin p) by (done || lia). cbn. lia.
      * rewrite (Hout p) by (done || lia). lia.
    + rewrite Habs by done. cbn. lia.
  - rewrite map_filter_delete, map_size_delete.
    destruct (0 <? get_item_count p' t) eqn:E; [lia |].
    destruct (reg !! pid) as [p|] eqn:Hp.
    + destruct (0 <? get_item_count p t) eqn:Ep.
      * rewrite (Hin p) by (done || lia).
        pose proof (map_size_ne_0_lookup_2 (filter (holds t) reg) pid) as Hne.
        rewrite (Hin p) in Hne by (done || lia). specialize (Hne (mk_is_Some _ _ eq_refl)).
        lia.
      * rewrite (Hout p) by (done || lia). cbn. lia.
    + rewrite Habs by done. cbn. lia.
Qed.

Lemma apply_event_players_insert gs ev :
  players (apply_event gs ev) =
  <[event_player ev := apply_to_player (snd (registry_get (players gs) (event_player ev))) ev]>
    (players gs).
Proof.
  apply map_eq. intros k. rewrite apply_event_players.
  case_bool_decide as Hk.
  - subst k. by rewrite lookup_insert_eq.
  - by rewrite lookup_insert_ne.
Qed.

Lemma holders_apply_event gs ev t :
  Z.of_nat (holders (apply_event gs ev) t) =
  Z.of_nat (holders gs t)
  + (if 0 <? player_count (apply_event gs ev) (event_player ev) t then 1 else 0)
  - (if 0 <? player_count gs (event_player ev) t then 1 else 0).
Proof.
  unfold holders. rewrite apply_event_players_insert, holders_insert.
  unfold player_count. rewrite apply_event_players, bool_decide_eq_true_2 by done. done.
Qed.

(** The owner count of one item stays the number of its holders over an
    event whose item list names no item twice. *)
Lemma owner_count_step gs ev t :
  distinct_items ev ->
  getd (owner_counts (item_stats gs)) t = Z.of_nat (holders gs t) ->
  getd (owner_counts (item_stats (apply_event gs ev))) t = Z.of_nat (holders (apply_event gs ev) t).
Proof.
  intros Hd Hinv.
  pose proof (holders_apply_event gs ev t) as Hh.
  destruct ev as [e | e]; cbn [apply_event event_player] in *.
  - pose proof (apply_inventory_event_view gs e t) as Hview.
    pose proof (apply_inventory_event_count gs e t) as Hcount.
    cbn in Hd. rewrite (sum_amounts_distinct t _ Hd) in Hcount.
    set (after := player_count (apply_inventory_event gs e) (inv_player_id e) t) in *.
    set (before := player_count gs (inv_player_id e) t) in *.
    destruct (last_amount t (inv_items e)) as [a|]; cbn [default] in Hcount; unfold id in Hcount.
    + cbn zeta in Hview. apply (f_equal (fun v => snd (fst v))) in Hview.
      unfold view in Hview; cbn [fst snd] in Hview. rewrite Hview, Hinv.
      replace (after - multiplier (inv_action e) * a) with before by lia.
      unfold owner_step.
      destruct (0 <? after) eqn:Ea; destruct (0 <? before) eqn:Eb;
        destruct (before <=? 0) eqn:Eb'; destruct (after <=? 0) eqn:Ea'; cbn; lia.
    + apply (f_equal (fun v => snd (fst v))) in Hview. unfold view in Hview; cbn [fst snd] in Hview.
      rewrite Hview, Hinv. replace after with before in Hh by lia. lia.
  - rewrite apply_money_event_stats, Hinv.
    pose proof (player_count_after_events gs [MonEv e] (mon_player_id e) t) as Hc.
    unfold apply_events, events_of in Hc. cbn [fold_left apply_event] in Hc.
    rewrite filter_cons, decide_True in Hc by done. cbn in Hc.
    rewrite Hc in Hh. replace (player_count gs (mon_player_id e) t + (0 + 0))
      with (player_count gs (mon_player_id e) t) in Hh by lia. lia.
Qed.

(** When nobody of the registry holds item [t] at the start and no event
    names an item twice in its list, the owner count of [t] is, after any
    events, the number of players whose stored count of [t] is positive. *)
Theorem owner_counts_count_holders (registry : gmap Z Player) (evs : list event) (t : Z) :
  holders (GameState_init registry None) t = 0%nat ->
  Forall distinct_items evs ->
  getd (owner_counts (item_stats (apply_events (GameState_init registry None) evs))) t =
  Z.of_nat (holders (apply_events (GameState_init registry None) evs) t).
Proof.
  intros Hstart Hd.
  assert (getd (owner_counts (item_stats (GameState_init registry None))) t
          = Z.of_nat (holders (GameState_init registry None) t)) as Hinv.
  { rewrite Hstart. cbn. by rewrite getd_empty. }
  revert Hinv. generalize (GameState_init registry None). unfold apply_events.
  induction Hd as [|ev evs Hev Hd IH]; intros gs Hinv; cbn [fold_left]; [done |].
  apply IH. by apply owner_count_step.
Qed.

Lemma owner_counts_count_holders_witness :
  holders (GameState_init ∅ None) 5 = 0%nat /\
  Forall distinct_items [InvEv (mkInventoryEvent 100 1 ITEM_ADD [(5, 3); (6, 1)] None [])] /\
  getd (owner_counts (item_stats (apply_events (GameState_init ∅ None)
          [InvEv (mkInventoryEvent 100 1 ITEM_ADD [(5, 3); (6, 1)] None [])]))) 5 =
  Z.of_nat (holders (apply_events (GameState_init ∅ None)
          [InvEv (mkInventoryEvent 100 1 ITEM_ADD [(5, 3); (6, 1)] None [])]) 5).
Proof.
  split; [reflexivity |].
  split.
  - constructor; [| constructor]. cbn. apply (bool_decide_unpack _). vm_compute. exact I.
  - apply (owner_counts_count_holders ∅
             [InvEv (mkInventoryEvent 100 1 ITEM_ADD [(5, 3); (6, 1)] None [])] 5).
    + reflexivity.
    + constructor; [| constructor]. cbn. apply (bool_decide_unpack _). vm_compute. exact I.
Defined.

End Holders.

Section Stock.

Import Parsers State Combiner Props Ledger.

Lemma stock_insert_fresh (reg : gmap Z Player) pid p' t :
  reg !! pid = None ->
  map_fold (fun _ p acc => get_item_count p t + acc) 0 (<[pid := p']> reg) =
  get_item_count p' t + map_fold (fun _ p acc => get_item_count p t + acc) 0 reg.
Proof.
  intros Hp. apply (map_fold_insert_L (fun _ p acc => get_item_count p t + acc)); [| done].
  intros. lia.
Qed.

Lemma stock_insert (reg : gmap Z Player) pid p' t :
  map_fold (fun _ p acc => get_item_count p t + acc) 0 (<[pid := p']> reg) =
  map_fold (fun _ p acc => get_item_count p t + acc) 0 reg
  + get_item_count p' t
  - match reg !! pid with Some p => get_item_count p t | None => 0 end.
Proof.
  destruct (reg !! pid) as [p|] eqn:Hp.
  - rewrite <- (insert_delete_id reg pid p Hp) at 2.
    rewrite <- (insert_delete_eq reg pid p').
    rewrite !stock_insert_fresh by apply lookup_delete_eq. lia.
  - rewrite stock_insert_fresh by done. lia.
Qed.

Lemma stock_apply_event gs ev t :
  stock (apply_event gs ev) t =
  stock gs t + player_count (apply_event gs ev) (event_player ev) t
  - player_count gs (event_player ev) t.
Proof.
  unfold stock. rewrite apply_event_players_insert, stock_insert.
  unfold player_count. by rewrite apply_event_players, bool_decide_eq_true_2 by done.
Qed.

(** The total of one item stays the quantity in the game over an event
    whose item list names no item twice. *)
Lemma totals_step gs ev t :
  distinct_items ev ->
  getd (totals (item_stats gs)) t = stock gs t ->
  getd (totals (item_stats (apply_event gs ev))) t = stock (apply_event gs ev) t.
Proof.
  intros Hd Hinv. rewrite stock_apply_event.
  destruct ev as [e | e]; cbn [apply_event event_player] in *.
  - pose proof (apply_inventory_event_view gs e t) as Hview.
    rewrite apply_inventory_event_count.
    cbn in Hd. rewrite (sum_amounts_distinct t _ Hd).
    destruct (last_amount t (inv_items e)) as [a|]; cbn zeta in Hview; unfold view in Hview;
      injection Hview as -> _ _; cbn [default]; unfold id; lia.
  - rewrite apply_money_event_stats.
    pose proof (player_count_after_events gs [MonEv e] (mon_player_id e) t) as Hc.
    unfold apply_events, events_of in Hc. cbn [fold_left apply_event] in Hc.
    rewrite filter_cons, decide_True in Hc by done. cbn in Hc. lia.
Qed.

(** The total that the statistics keep for an item is the quantity of it in
    the game, the stored counts of all the players added up: when this holds
    of a state, as it does of a fresh one, it holds after any events of which
    none names an item twice in its list. *)
Theorem totals_are_the_stock (gs : GameState) (evs : list event) (t : Z) :
  getd (totals (item_stats gs)) t = stock gs t ->
  Forall distinct_items evs ->
  getd (totals (item_stats (apply_events gs evs))) t = stock (apply_events gs evs) t.
Proof.
  intros Hinv Hd. revert gs Hinv. unfold apply_events.
  induction Hd as [|ev evs Hev Hd IH]; intros gs Hinv; cbn [fold_left]; [done |].
  apply IH. by apply totals_step.
Qed.

Lemma totals_are_the_stock_witness :
  getd (totals (item_stats (GameState_init ∅ None))) 5 = stock (GameState_init ∅ None) 5 /\
  Forall distinct_items
    [InvEv (mkInventoryEvent 100 1 ITEM_ADD [(5, 3); (6, 1)] None []);
     InvEv (mkInventoryEvent 200 2 ITEM_ADD [(5, 4)] None []);
     InvEv (mkInventoryEvent 300 1 ITEM_REMOVE [(5, 1)] None [])] /\
  getd (totals (item_stats (apply_events (GameState_init ∅ None)
          [InvEv (mkInventoryEvent 100 1 ITEM_ADD [(5, 3); (6, 1)] None []);
           InvEv (mkInventoryEvent 200 2 ITEM_ADD [(5, 4)] None []);
           InvEv (mkInventoryEvent 300 1 ITEM_REMOVE [(5, 1)] None [])]))) 5 =
  stock (apply_events (GameState_init ∅ None)
          [InvEv (mkInventoryEvent 100 1 ITEM_ADD [(5, 3); (6, 1)] None []);
           InvEv (mkInventoryEvent 200 2 ITEM_ADD [(5, 4)] None []);
           InvEv (mkInventoryEvent 300 1 ITEM_REMOVE [(5, 1)] None [])]) 5.
Proof.
  split; [reflexivity |].
  split.
  - repeat constructor; cbn; apply (bool_decide_unpack _); vm_compute; exact I.
  - apply (totals_are_the_stock (GameState_init ∅ None)
             [InvEv (mkInventoryEvent 100 1 ITEM_ADD [(5, 3); (6, 1)] None []);
              InvEv (mkInventoryEvent 200 2 ITEM_ADD [(5, 4)] None []);
              InvEv (mkInventoryEvent 300 1 ITEM_REMOVE [(5, 1)] None [])] 5).
    + reflexivity.
    + repeat constructor; cbn; apply (bool_decide_unpack _); vm_compute; exact I.
Defined.

End Stock.

Section AppearanceSlices.

Import Parsers State Combiner Props Ledger.

(** [first_items] is a prefix and [last_items] a suffix of the first-seen
    sequence.  For a positive limit each holds the limit's number of
    entries, or all of them when there are fewer.  A limit of zero gives no
    first item but every last item, since the slice then starts at the
    front; a negative limit drops that many entries, from the end for
    [first_items] and from the front for [last_items]. *)
Theorem first_and_last_items_slices (self : ItemStatistics) (limit : Z) :
  let order := _first_seen_order self in
  first_items self limit `prefix_of` order /\
  last_items self limit `suffix_of` order /\
  (0 < limit ->
   first_items self limit = firstn (Z.to_nat limit) order /\
   last_items self limit = skipn (length order - Z.to_nat limit) order /\
   length (first_items self limit) = Nat.min (Z.to_nat limit) (length order) /\
   length (last_items self limit) = Nat.min (Z.to_nat limit) (length order)) /\
  (Z.of_nat (length order) <= limit ->
   first_items self limit = order /\ last_items self limit = order) /\
  first_items self 0 = [] /\
  last_items self 0 = order /\
  (limit < 0 ->
   first_items self limit = firstn (length order - Z.to_nat (- limit)) order /\
   last_items self limit = skipn (Z.to_nat (- limit)) order).
Proof.
  intros order. unfold first_items, last_items, slice_to, slice_last. fold order.
  assert (forall k, match order with [] => [] | _ :: _ => skipn k order end = skipn k order) as Hsk.
  { intros k. destruct order; [by rewrite skipn_nil | done]. }
  split_and!.
  - destruct (limit <? 0); apply prefix_take.
  - destruct (0 <? limit); rewrite Hsk; apply suffix_drop.
  - intros Hpos. assert (limit <? 0 = false) as -> by lia.
    assert (0 <? limit = true) as -> by lia. rewrite Hsk.
    split_and!; try done.
    + apply length_firstn.
    + rewrite length_skipn. lia.
  - intros Hbig. destruct (limit <? 0) eqn:E1; [lia |]. split.
    + apply firstn_all2. lia.
    + destruct (0 <? limit) eqn:E2; rewrite Hsk.
      * replace (length order - Z.to_nat limit)%nat with 0%nat by lia. done.
      * replace (Z.to_nat (- limit)) with 0%nat by lia. done.
  - done.
  - cbn. by destruct order.
  - intros Hneg. assert (limit <? 0 = true) as -> by lia.
    assert (0 <? limit = false) as -> by lia. by rewrite Hsk.
Qed.

End AppearanceSlices.

Section TwoPasses.

Import Parsers State Combiner Props Ledger.

(** The inventory that the registry holds for a player. *)
Lemma registry_get_inventory (reg : gmap Z Player) pid :
  inventory (snd (registry_get reg pid)) =
  match reg !! pid with Some p => inventory p | None => ∅ end.
Proof. unfold registry_get. by destruct (reg !! pid). Qed.

Lemma apply_event_inventory gs ev pid :
  inventory (snd (registry_get (players (apply_event gs ev)) pid)) =
  match ev with
  | InvEv e =>
      if bool_decide (inv_player_id e = pid)
      then fst (apply_inventory_loop (multiplier (inv_action e)) (inv_items e)
                  (inventory (snd (registry_get (players gs) pid))) [])
      else inventory (snd (registry_get (players gs) pid))
  | MonEv _ => inventory (snd (registry_get (players gs) pid))
  end.
Proof.
  rewrite !registry_get_inventory, apply_event_players.
  destruct ev as [e | e]; cbn [event_player apply_to_player].
  - case_bool_decide; [| done]. by rewrite apply_inventory_fst, registry_get_inventory.
  - case_bool_decide; [| done]. by rewrite apply_money_inventory, registry_get_inventory.
Qed.

Lemma apply_event_stats gs ev :
  item_stats (apply_event gs ev) =
  match ev with
  | InvEv e =>
      fold_left (forward_change (inv_timestamp e))
        (snd (apply_inventory_loop (multiplier (inv_action e)) (inv_items e)
                (inventory (snd (registry_get (players gs) (inv_player_id e)))) []))
        (item_stats gs)
  | MonEv _ => item_stats gs
  end.
Proof.
  destruct ev as [e | e]; cbn [apply_event].
  - by rewrite apply_inventory_event_stats, apply_inventory_snd.
  - apply apply_money_event_stats.
Qed.

(** The item statistics and the inventories depend on the inventory events
    only. *)
Lemma stats_from_inventory_events evs : forall gs1 gs2,
  item_stats gs1 = item_stats gs2 ->
  (forall pid, inventory (snd (registry_get (players gs1) pid))
               = inventory (snd (registry_get (players gs2) pid))) ->
  item_stats (apply_events gs1 evs)
    = item_stats (apply_events gs2 (map InvEv (inventory_part evs))).
Proof.
  unfold apply_events, inventory_part.
  induction evs as [|ev evs IH]; intros gs1 gs2 Hs Hi; cbn [fold_left omap list_omap map]; [done |].
  destruct ev as [e | e]; cbn [map fold_left].
  - apply IH.
    + by rewrite !apply_event_stats, Hs, Hi.
    + intros pid. rewrite !apply_event_inventory. by rewrite Hi.
  - apply IH.
    + by rewrite apply_event_stats.
    + intros pid. by rewrite apply_event_inventory.
Qed.

Lemma apply_events_app gs l1 l2 :
  apply_events gs (l1 ++ l2) = apply_events (apply_events gs l1) l2.
Proof. unfold apply_events. apply fold_left_app. Qed.

Lemma money_events_keep_stats mon : forall gs,
  item_stats (apply_events gs (map MonEv mon)) = item_stats gs.
Proof.
  unfold apply_events. induction mon as [|m mon IH]; intros gs; cbn [map fold_left]; [done |].
  by rewrite IH, apply_event_stats.
Qed.

Lemma events_of_app pid l1 l2 : events_of pid (l1 ++ l2) = events_of pid l1 ++ events_of pid l2.
Proof. unfold events_of. apply filter_app. Qed.

Lemma sum_list_app l1 l2 : sum_list (l1 ++ l2) = sum_list l1 + sum_list l2.
Proof. unfold sum_list. induction l1 as [|x l1 IH]; cbn; lia. Qed.

(** A sum over the events of a player does not see how the two logs are
    interleaved. *)
Lemma sum_over_two_passes (f : event -> Z) pid evs :
  sum_list (map f (events_of pid evs)) =
  sum_list (map f (events_of pid (map InvEv (inventory_part evs) ++ map MonEv (money_part evs)))).
Proof.
  assert (forall x l, sum_list (map f (events_of pid (x :: l)))
                      = sum_list (map f (events_of pid [x])) + sum_list (map f (events_of pid l)))
    as Hcons.
  { intros x l. change (x :: l) with ([x] ++ l).
    by rewrite events_of_app, map_app, sum_list_app. }
  unfold inventory_part, money_part.
  induction evs as [|ev evs IH]; [done |].
  rewrite Hcons, IH. rewrite !events_of_app, !map_app, !sum_list_app.
  destruct ev as [e | e]; cbn [omap list_omap map].
  - rewrite (Hcons (InvEv e) (map InvEv _)). lia.
  - rewrite (Hcons (MonEv e) (map MonEv _)). lia.
Qed.

Lemma map_event_player_two_passes evs (k : Z) :
  k ∈ map event_player (map InvEv (inventory_part evs) ++ map MonEv (money_part evs))
  <-> k ∈ map event_player evs.
Proof.
  unfold inventory_part, money_part. induction evs as [|ev evs IH].
  - done.
  - rewrite map_app, elem_of_app in IH. rewrite map_app, elem_of_app.
    destruct ev as [e | e]; cbn [omap list_omap map event_player]; rewrite !elem_of_cons; tauto.
Qed.

(** The state that [run_pipeline] builds, with all the inventory events
    before all the money events, has the item statistics, the balances, the
    stored counts and the players that any interleaving of the same two event
    sequences gives, the chronological one included; nothing raises on the
    way. *)
Theorem two_passes_give_the_interleaved_ledger (registry : gmap Z Player)
    (inventory_lines money_lines : list str) (evs : list event) (pid t : Z) :
  exists inv mon gs,
    iter_inventory_events inventory_lines = Ok inv /\
    iter_money_events money_lines = Ok mon /\
    run_pipeline_state registry inventory_lines money_lines = Ok gs /\
    gs = apply_events (GameState_init registry None) (map InvEv inv ++ map MonEv mon) /\
    (inventory_part evs = inv -> money_part evs = mon ->
     let gs' := apply_events (GameState_init registry None) evs in
     item_stats gs = item_stats gs' /\
     player_money gs pid = player_money gs' pid /\
     player_count gs pid t = player_count gs' pid t /\
     dom (players gs) = dom (players gs')).
Proof.
  destruct (iter_inventory_events_total inventory_lines 1) as [inv Hinv].
  destruct (iter_money_events_total money_lines 1) as [mon Hmon].
  exists inv, mon. eexists. unfold run_pipeline_state, iter_inventory_events, iter_money_events.
  rewrite Hinv, Hmon. cbn [Py.bind].
  split; [done |]. split; [done |]. split; [reflexivity |].
  assert (fold_left apply_money_event mon
            (fold_left apply_inventory_event inv (GameState_init registry None))
          = apply_events (GameState_init registry None) (map InvEv inv ++ map MonEv mon)) as ->.
  { unfold apply_events. rewrite fold_left_app.
    assert (forall l gs, fold_left apply_money_event l gs = fold_left apply_event (map MonEv l) gs)
      as Hm by (induction l as [|m l IH]; intros gs; [done | apply IH]).
    assert (forall l gs, fold_left apply_inventory_event l gs
                         = fold_left apply_event (map InvEv l) gs)
      as Hi by (induction l as [|e l IH]; intros gs; [done | apply IH]).
    by rewrite Hm, Hi. }
  split; [done |]. intros Hi Hm. subst inv mon. cbn zeta.
  set (gs0 := GameState_init registry None).
  split_and!.
  - rewrite apply_events_app, money_events_keep_stats.
    symmetry. by apply stats_from_inventory_events.
  - rewrite !player_money_after_events. f_equal. symmetry. apply sum_over_two_passes.
  - rewrite !player_count_after_events. f_equal. symmetry. apply sum_over_two_passes.
  - rewrite !players_dom_after_events.
    f_equal. apply set_eq. intros k. rewrite !elem_of_list_to_set.
    apply map_event_player_two_passes.
Qed.

End TwoPasses.

(** ** More on [src/parsers.py] *)

Section Stripping.

Import Parsers Props.

Lemma lstrip_all_spaces w : all_spaces w -> lstrip w = [].
Proof.
  unfold all_spaces. induction w as [|c w IH]; cbn; [done |].
  intros H. apply andb_true_iff in H as [-> H]. by apply IH.
Qed.

Lemma lstrip_app_nonspace x c y :
  is_space c = false -> lstrip (x ++ c :: y) = lstrip x ++ c :: y.
Proof.
  intros Hc. induction x as [|a x IH]; cbn [app lstrip].
  - by rewrite Hc.
  - by destruct (is_space a).
Qed.

Lemma all_spaces_rev w : all_spaces w -> all_spaces (rev w).
Proof.
  unfold all_spaces. rewrite !forallb_forall. intros H c Hc. apply H. by apply in_rev.
Qed.

Lemma rstrip_spaces s w : all_spaces w -> rstrip (s ++ w) = rstrip s.
Proof.
  intros Hw. unfold rstrip. rewrite rev_app_distr, lstrip_spaces; [done |].
  by apply all_spaces_rev.
Qed.

Lemma rstrip_app_nonspace x c y :
  is_space c = false -> rstrip (x ++ c :: y) = x ++ c :: rstrip y.
Proof.
  intros Hc. unfold rstrip. rewrite rev_app_distr. cbn [rev].
  rewrite <- app_assoc. cbn [app]. rewrite lstrip_app_nonspace by done.
  rewrite rev_app_distr. cbn [rev]. rewrite rev_involutive.
  by rewrite <- app_assoc.
Qed.

Lemma lstrip_cases s :
  (lstrip s = [] /\ all_spaces s) \/
  (exists w c r, s = w ++ c :: r /\ all_spaces w /\ is_space c = false /\ lstrip s = c :: r).
Proof.
  induction s as [|a s IH]; cbn [lstrip]; [by left |].
  destruct (is_space a) eqn:Ea.
  - destruct IH as [[H1 H2] | (w & c & r & -> & Hw & Hc & Hl)].
    + left. split; [done |]. unfold all_spaces in *. cbn. by rewrite Ea.
    + right. exists (a :: w), c, r. split_and!; try done.
      unfold all_spaces in *. cbn. by rewrite Ea.
  - right. by exists [], a, s.
Qed.

(** White space around a text does not change what [strip] returns. *)
Lemma strip_around w1 s w2 :
  all_spaces w1 -> all_spaces w2 -> strip (w1 ++ s ++ w2) = strip s.
Proof.
  intros H1 H2. unfold strip. rewrite lstrip_spaces by done.
  destruct (lstrip_cases s) as [[Hl Hs] | (w & c & r & -> & Hw & Hc & Hl)].
  - rewrite Hl. rewrite lstrip_all_spaces; [done |].
    unfold all_spaces in *. rewrite forallb_app. by rewrite Hs, H2.
  - rewrite Hl. rewrite <- app_assoc. cbn [app].
    rewrite lstrip_app_nonspace, (lstrip_all_spaces w) by done. cbn [app].
    change (c :: r ++ w2) with ((c :: r) ++ w2). by apply rstrip_spaces.
Qed.

Lemma strip_lstrip s : strip (lstrip s) = strip s.
Proof.
  destruct (lstrip_decompose s) as (w & Hs & Hw).
  rewrite Hs at 2. rewrite <- (app_nil_r (lstrip s)) at 2.
  symmetry. by apply (strip_around w (lstrip s) []).
Qed.

Lemma strip_rstrip s : strip (rstrip s) = strip s.
Proof.
  destruct (rstrip_decompose s) as (w & Hs & Hw).
  rewrite Hs at 2. symmetry. by apply (strip_around [] (rstrip s) w).
Qed.

Lemma int_lstrip s : int (lstrip s) = int s.
Proof. unfold int. by rewrite strip_lstrip. Qed.

(** Both parsers see a line through [strip]: white space before and after
    the line, the final newline of a line read from a file included, changes
    nothing of what they return. *)
Theorem parsers_ignore_surrounding_space (w1 line w2 : str) (line_no : option nat) :
  all_spaces w1 -> all_spaces w2 ->
  parse_inventory_line (w1 ++ line ++ w2) line_no = parse_inventory_line line line_no /\
  parse_money_line (w1 ++ line ++ w2) line_no = parse_money_line line line_no.
Proof.
  intros H1 H2. unfold parse_inventory_line, parse_money_line. cbn zeta.
  by rewrite strip_around.
Qed.

Lemma parsers_ignore_surrounding_space_witness :
  all_spaces (lit "  ") /\ all_spaces [newline] /\
  parse_inventory_line (lit "  " ++ lit "[1000] ITEM_ADD | 7, (5, 3)" ++ [newline]) (Some 1%nat)
    = parse_inventory_line (lit "[1000] ITEM_ADD | 7, (5, 3)") (Some 1%nat) /\
  parse_money_line (lit "  " ++ lit "[1000] ITEM_ADD | 7, (5, 3)" ++ [newline]) (Some 1%nat)
    = parse_money_line (lit "[1000] ITEM_ADD | 7, (5, 3)") (Some 1%nat).
Proof.
  split; [reflexivity |]. split; [reflexivity |].
  apply (parsers_ignore_surrounding_space (lit "  ") (lit "[1000] ITEM_ADD | 7, (5, 3)")
           [newline] (Some 1%nat)); reflexivity.
Defined.

End Stripping.

Section MoneyLine.

Import Parsers Props.

Lemma splitn_zero sep s : splitn sep s 0 = [s].
Proof. by destruct s. Qed.

Lemma splitn_no_sep sep s k : sep ∉ s -> splitn sep s (S k) = [s].
Proof.
  induction s as [|c s IH]; cbn [splitn]; [done |].
  intros H. apply not_elem_of_cons in H as [Hc Hs].
  assert (Ascii.eqb c sep = false) as -> by (apply Ascii.eqb_neq; congruence).
  by rewrite IH.
Qed.

Lemma splitn_app sep a rest k :
  sep ∉ a -> splitn sep (a ++ sep :: rest) (S k) = a :: splitn sep rest k.
Proof.
  induction a as [|c a IH]; cbn [app splitn].
  - intros _. by rewrite Ascii.eqb_refl.
  - intros H. apply not_elem_of_cons in H as [Hc Ha].
    assert (Ascii.eqb c sep = false) as -> by (apply Ascii.eqb_neq; congruence).
    by rewrite IH.
Qed.

(** What a split that may still cut gives: the text when the separator
    does not occur, and else the field before its first occurrence and the
    split of what follows. *)
Lemma splitn_cases sep s k :
  (sep ∉ s /\ splitn sep s (S k) = [s]) \/
  (exists a rest, s = a ++ sep :: rest /\ sep ∉ a /\
                  splitn sep s (S k) = a :: splitn sep rest k).
Proof.
  induction s as [|c s IH].
  - left. split; [apply not_elem_of_nil | done].
  - destruct (Ascii.eqb c sep) eqn:E.
    + apply Ascii.eqb_eq in E. subst c. right. exists [], s.
      split_and!; [done | apply not_elem_of_nil |].
      apply (splitn_app sep [] s k), not_elem_of_nil.
    + apply Ascii.eqb_neq in E.
      destruct IH as [[Hs Hsplit] | (a & rest & -> & Ha & Hsplit)].
      * left. assert (sep ∉ c :: s) as Hcs by (apply not_elem_of_cons; split; congruence).
        split; [done |]. by apply splitn_no_sep.
      * right. exists (c :: a), rest.
        assert (sep ∉ c :: a) as Hca by (apply not_elem_of_cons; split; congruence).
        split_and!; [done | done |]. by apply (splitn_app sep (c :: a) rest k).
Qed.

(** Three fields out of [split(sep, 2)]: the text has two separators at
    least, the first two fields are free of it, the third is the rest. *)
Lemma splitn_two_three sep s x y z :
  splitn sep s 2 = [x; y; z] <-> s = x ++ sep :: y ++ sep :: z /\ sep ∉ x /\ sep ∉ y.
Proof.
  split.
  - destruct (splitn_cases sep s 1) as [[_ ->] | (a & rest & -> & Ha & ->)]; [done |].
    destruct (splitn_cases sep rest 0) as [[_ ->] | (b & rest' & -> & Hb & ->)]; [done |].
    rewrite splitn_zero. intros H. by simplify_eq.
  - intros (-> & Hx & Hy).
    by rewrite splitn_app, splitn_app, splitn_zero.
Qed.

Lemma splitn_two_length sep s : (1 <= length (splitn sep s 2) <= 3)%nat.
Proof.
  destruct (splitn_cases sep s 1) as [[_ ->] | (a & rest & -> & Ha & ->)]; [cbn; lia |].
  destruct (splitn_cases sep rest 0) as [[_ ->] | (b & rest' & -> & Hb & ->)]; [cbn; lia |].
  rewrite splitn_zero. cbn. lia.
Qed.

End MoneyLine.

Section MoneyLineClaims.

Import Parsers Props.

Lemma money_action_allowed (s : str) :
  bool_decide (s ∈ _MONEY_ALLOWED_ACTIONS) = true <-> s = MONEY_ADD \/ s = MONEY_REMOVE.
Proof.
  rewrite bool_decide_eq_true. unfold _MONEY_ALLOWED_ACTIONS.
  rewrite !elem_of_cons. split; [intros [? | [? | H]]; auto; by apply elem_of_nil in H | tauto].
Qed.

(** What a money event was read from. *)
Lemma parse_money_line_Some (line : str) (line_no : option nat) (e : MoneyEvent) :
  parse_money_line line line_no = Ok (Some e) ->
  exists a b c d r,
    strip line = a ++ "|"%char :: b ++ "|"%char :: c ++ ","%char :: d ++ ","%char :: r /\
    "|"%char ∉ a /\ "|"%char ∉ b /\ ","%char ∉ c /\ ","%char ∉ d /\
    (strip c = MONEY_ADD \/ strip c = MONEY_REMOVE) /\
    int a = Ok (mon_timestamp e) /\
    int b = Ok (mon_player_id e) /\
    int d = Ok (mon_amount e) /\
    mon_action e = strip c /\
    mon_reason e = strip r /\
    mon_line_no e = line_no /\
    mon_raw_line e = strip line.
Proof.
  unfold parse_money_line. cbn zeta.
  case_bool_decide as Hblank; [done |].
  destruct (splitn "|" (strip line) 2) as [|a [|b [|payload [|? ?]]]] eqn:E1; try done.
  apply splitn_two_three in E1 as (Htext & Ha & Hb).
  destruct (splitn "," payload 2) as [|c [|d [|r [|? ?]]]] eqn:E2; try done.
  apply splitn_two_three in E2 as (-> & Hc & Hd).
  destruct (bool_decide (strip c ∈ _MONEY_ALLOWED_ACTIONS)) eqn:Ec; [| done].
  apply money_action_allowed in Ec. cbn [negb].
  destruct (int_total a) as [[va Hva] | Hva]; rewrite Hva; cbn; [| done].
  destruct (int_total b) as [[vb Hvb] | Hvb]; rewrite Hvb; cbn; [| done].
  destruct (int_total d) as [[vd Hvd] | Hvd]; rewrite Hvd; cbn; [| done].
  intros H. simplify_eq. exists a, b, c, d, r. cbn. split_and!; done.
Qed.


Lemma strip_idem s : strip (strip s) = strip s.
Proof. unfold strip at 2. by rewrite strip_rstrip, strip_lstrip. Qed.

(** The text that an event keeps of its line, the line without the white
    space around it, parses again to the same event. *)
Theorem raw_line_parses_back (line : str) (line_no : option nat) :
  (forall e, parse_inventory_line line line_no = Ok (Some e) ->
             parse_inventory_line (inv_raw_line e) line_no = Ok (Some e)) /\
  (forall e, parse_money_line line line_no = Ok (Some e) ->
             parse_money_line (mon_raw_line e) line_no = Ok (Some e)).
Proof.
  split; intros e Hp.
  - assert (inv_raw_line e = strip line) as ->.
    { rewrite parse_inventory_line_outcome in Hp. case_bool_decide as Hblank; [done |].
      assert (parse_outcome (strip line) line_no = Some e) as Ho by by simplify_eq.
      apply parse_outcome_Some in Ho
        as (? & ? & ? & ? & ? & ? & ? & ? & ? & ? & ? & ? & ? & ? & ? & ?).
      done. }
    rewrite <- Hp. unfold parse_inventory_line. cbn zeta. by rewrite strip_idem.
  - assert (mon_raw_line e = strip line) as ->.
    { apply parse_money_line_Some in Hp
        as (? & ? & ? & ? & ? & ? & ? & ? & ? & ? & ? & ? & ? & ? & ? & ? & ? & ?).
      done. }
    rewrite <- Hp. unfold parse_money_line. cbn zeta. by rewrite strip_idem.
Qed.

End MoneyLineClaims.

Section LineNumbers.

Import Parsers Props.








End LineNumbers.

(** ** More on [src/combiner.py] *)

Section MergeOrder.

Import Parsers Heapq Combiner Props.

Variable fi : InventoryEvent -> str.
Variable fm : MoneyEvent -> str.




End MergeOrder.

(** ** Properties of the lines of the combined log *)

Section CombinedLines.

Import Parsers Combiner Props Formatting.






Section Lines.

Variable _format_timestamp : Z -> str.
Hypothesis timestamp_no_newline : forall ts, newline ∉ _format_timestamp ts.



End Lines.



End CombinedLines.

(** ** Properties of [src/report.py] *)

Section Sorting.

Import Ledger Report.

Context {A : Type} (key : A -> Z * Z).

Lemma key_lt_spec (a b : Z * Z) :
  key_lt a b = true <-> fst a < fst b \/ (fst a = fst b /\ snd a < snd b).
Proof.
  unfold key_lt. rewrite orb_true_iff, andb_true_iff, !Z.ltb_lt, Z.eqb_eq. tauto.
Qed.

Lemma key_le_spec (a b : Z * Z) :
  key_le a b <-> fst a < fst b \/ (fst a = fst b /\ snd a <= snd b).
Proof.
  unfold key_le. rewrite <- not_true_iff_false, key_lt_spec. lia.
Qed.

Lemma key_le_antisym (a b : Z * Z) : key_le a b -> key_le b a -> a = b.
Proof.
  rewrite !key_le_spec. destruct a, b. cbn. intros. f_equal; lia.
Qed.

Lemma insort_perm x l : insort key x l ≡ₚ x :: l.
Proof.
  induction l as [|y l IH]; cbn [insort]; [done |].
  destruct (key_lt (key y) (key x)); [| done].
  rewrite IH. apply Permutation_swap.
Qed.

Lemma sorted_perm l : sorted key l ≡ₚ l.
Proof.
  induction l as [|x l IH]; cbn; [done |].
  fold (sorted key l). by rewrite insort_perm, IH.
Qed.

Lemma insort_sorted x l :
  StronglySorted (ranks_before key) l -> StronglySorted (ranks_before key) (insort key x l).
Proof.
  induction 1 as [|y l Hl IH Hy]; cbn [insort]; [repeat constructor |].
  destruct (key_lt (key y) (key x)) eqn:E.
  - constructor; [done |]. rewrite insort_perm. constructor; [| done].
    unfold ranks_before. apply key_lt_spec in E. apply key_le_spec. lia.
  - constructor; [by constructor |].
    assert (ranks_before key x y) as Hxy by exact E.
    constructor; [done |].
    eapply Forall_impl; [exact Hy |]. intros z Hz. unfold ranks_before in *.
    rewrite key_le_spec in *. lia.
Qed.

Lemma sorted_sorted l : StronglySorted (ranks_before key) (sorted key l).
Proof.
  induction l as [|x l IH]; cbn; [constructor |]. by apply insort_sorted.
Qed.

(** The sorted list does not depend on the order of the input when no two
    elements share a key. *)
Lemma sorted_unique l l' :
  NoDup (map key l) -> l' ≡ₚ l -> sorted key l' = sorted key l.
Proof.
  intros Hnd Hperm.
  apply (StronglySorted_unique_strong (ranks_before key)); try apply sorted_sorted.
  - intros x1 x2 H1 H2 H12 H21.
    rewrite sorted_perm, Hperm in H1. rewrite sorted_perm in H2.
    pose proof (key_le_antisym _ _ H12 H21) as Hk.
    apply list_elem_of_lookup in H1 as [i Hi], H2 as [j Hj].
    assert (i = j) as ->; [| congruence].
    apply (NoDup_lookup (map key l) i j (key x1)); [done | |].
    + by rewrite list_lookup_fmap, Hi.
    + by rewrite list_lookup_fmap, Hj, Hk.
  - by rewrite !sorted_perm.
Qed.

(** A slice from the front of a list is a prefix of it. *)
Lemma slice_to_prefix (l : list A) (k : Z) : exists rest, slice_to l k ++ rest = l.
Proof.
  unfold slice_to. destruct (k <? 0); eexists; apply take_drop.
Qed.

Lemma slice_to_length (l : list A) (k : Z) :
  0 <= k -> length (slice_to l k) = Nat.min (Z.to_nat k) (length l).
Proof.
  intros Hk. unfold slice_to. destruct (k <? 0) eqn:E; [lia |]. apply length_take.
Qed.

(** The first rows of a ranking: they come from the list, they stand in
    ranking order, and whatever was left out ranks after each of them. *)
Lemma ranking_rows l k :
  (forall x, x ∈ slice_to (sorted key l) k -> x ∈ l) /\
  StronglySorted (ranks_before key) (slice_to (sorted key l) k) /\
  (forall x y, x ∈ slice_to (sorted key l) k -> y ∈ l ->
               y ∉ slice_to (sorted key l) k -> ranks_before key x y).
Proof.
  destruct (slice_to_prefix (sorted key l) k) as [rest Hrest].
  pose proof (sorted_sorted l) as Hs. rewrite <- Hrest in Hs.
  split_and!.
  - intros x Hx. rewrite <- (sorted_perm l), <- Hrest. apply elem_of_app. by left.
  - by apply StronglySorted_app_1_l in Hs.
  - intros x y Hx Hy Hny. rewrite <- (sorted_perm l), <- Hrest in Hy.
    apply elem_of_app in Hy as [Hy | Hy]; [done |].
    by apply (StronglySorted_app_1_elem_of _ _ _ _ _ Hs).
Qed.

Lemma key_lt_of_le (a b : Z * Z) : key_le a b -> a <> b -> key_lt a b = true.
Proof.
  rewrite key_le_spec, key_lt_spec. destruct a, b. cbn. intros H Hne.
  destruct (decide (z0 = z2)); [| lia]. subst. destruct H as [? | [-> _]]; [lia |]. done.
Qed.

(** With distinct keys the ranking order is strict. *)
Lemma ranking_strict l k :
  NoDup (map key l) ->
  StronglySorted (fun x y => key_lt (key x) (key y) = true) (slice_to (sorted key l) k).
Proof.
  intros Hnd.
  destruct (slice_to_prefix (sorted key l) k) as [rest Hrest].
  assert (NoDup (map key (slice_to (sorted key l) k))) as Hnd'.
  { assert (NoDup (map key (sorted key l))) as H by by rewrite sorted_perm.
    rewrite <- Hrest, map_app in H. by apply NoDup_app in H as [? _]. }
  destruct (ranking_rows l k) as (_ & Hs & _). clear Hrest.
  induction Hs as [|x rows Hrows IH Hx]; [constructor |].
  cbn [map] in Hnd'. apply NoDup_cons in Hnd' as [Hx' Hnd'].
  constructor; [by apply IH |].
  apply Forall_forall. intros y Hy. rewrite Forall_forall in Hx.
  apply key_lt_of_le; [by apply Hx |].
  intros Heq. apply Hx'. rewrite Heq. by apply list_elem_of_fmap_2.
Qed.

End Sorting.

Section Rankings.

Import Parsers Combiner State Props Ledger Formatting Report.

Lemma mentions_keys_distinct (m : gmap Z Z) :
  NoDup (map (fun pair : Z * Z => (- snd pair, fst pair)) (map_to_list m)).
Proof.
  apply (NoDup_fmap_1 snd). rewrite <- list_fmap_compose.
  apply (NoDup_fst_map_to_list m).
Qed.

(** The ranking of the items by mentions: each row is an entry of
    [mentions] with the name of its item; the rows stand by decreasing count
    and, at equal counts, by increasing item id, no item twice; a limit of
    [limit >= 0] gives [limit] rows, or all of them when there are fewer; an
    item that is left out has no more mentions than any row, and a larger id
    than the rows with as many; and the rows do not depend on the order in
    which the dictionary yields its entries. *)
Theorem top_items_are_the_most_mentioned (item_stats : ItemStatistics)
    (catalog : gmap Z str) (limit : Z) :
  let rows := _top_items_by_mentions item_stats catalog limit in
  (forall id name count, (id, name, count) ∈ rows ->
     mentions item_stats !! id = Some count /\ name = _item_name id catalog) /\
  StronglySorted (fun r r' : Z * str * Z =>
                    snd r' < snd r \/ (snd r = snd r' /\ fst (fst r) < fst (fst r'))) rows /\
  (0 <= limit -> length rows = Nat.min (Z.to_nat limit) (size (mentions item_stats))) /\
  (forall id count id' name' count',
     mentions item_stats !! id = Some count ->
     id ∉ map (fun r : Z * str * Z => fst (fst r)) rows ->
     (id', name', count') ∈ rows ->
     count < count' \/ (count = count' /\ id' < id)) /\
  (forall items, items ≡ₚ map_to_list (mentions item_stats) ->
     top_items_of items catalog limit = rows).
Proof.
  cbn zeta. unfold _top_items_by_mentions, top_items_of. cbn zeta.
  set (key := fun pair : Z * Z => (- snd pair, fst pair)).
  set (items := map_to_list (mentions item_stats)).
  set (row := fun '(item_type_id, count) => (item_type_id, _item_name item_type_id catalog, count)).
  destruct (ranking_rows key items limit) as (Hmem & Hsorted & Htop).
  pose proof (mentions_keys_distinct (mentions item_stats)) as Hnd. fold key items in Hnd.
  split_and!.
  - intros id name count Hrow.
    apply list_elem_of_fmap in Hrow as ([id0 count0] & Hrow & Hin). cbn in Hrow. simplify_eq.
    split; [| done]. apply Hmem in Hin. by apply elem_of_map_to_list in Hin.
  - eapply (StronglySorted_fmap row); [| exact (ranking_strict key items limit Hnd)].
    intros [id1 c1] [id2 c2] Hlt. apply key_lt_spec in Hlt. cbn in *. lia.
  - intros Hlimit. rewrite length_fmap, slice_to_length by done.
    rewrite (Permutation_length (sorted_perm key items)).
    unfold items. by rewrite length_map_to_list.
  - intros id count id' name' count' Hid Hout Hrow.
    apply list_elem_of_fmap in Hrow as ([id0 count0] & Hrow & Hin). cbn in Hrow. simplify_eq.
    assert (id ≠ id0) as Hne.
    { intros ->. apply Hout. apply list_elem_of_fmap. exists (id0, _item_name id0 catalog, count0).
      split; [done |]. apply list_elem_of_fmap. by exists (id0, count0). }
    assert (ranks_before key (id0, count0) (id, count)) as Hr.
    { apply Htop; [done | by apply elem_of_map_to_list |].
      intros Hin'. apply Hout. apply list_elem_of_fmap. exists (id, _item_name id catalog, count).
      split; [done |]. apply list_elem_of_fmap. by exists (id, count). }
    apply key_le_spec in Hr. cbn in Hr. lia.
  - intros items' Hperm. by rewrite (sorted_unique key items items' Hnd Hperm).
Qed.

Lemma players_keys_distinct (players : list Player) :
  NoDup (map player_id players) ->
  NoDup (map (fun p => (- money p, player_id p)) (filter active players)).
Proof.
  intros Hnd. apply (NoDup_fmap_1 snd). rewrite <- list_fmap_compose.
  eapply sublist_NoDup; [exact Hnd |].
  apply (fmap_sublist player_id), sublist_filter.
Qed.

(** The ranking of the players by balance: the rows are players of the
    list with a recorded event, by decreasing balance and, at equal balances,
    by increasing player id; a limit of [limit >= 0] gives [limit] rows, or all
    of the active players when there are fewer; an active player who is left
    out does not rank before any row; and when the player ids are distinct the
    rows do not depend on the order of the list. *)
Theorem top_players_are_the_richest_active (players : list Player) (limit : Z) :
  let rows := _top_players_by_money players limit in
  (forall p, p ∈ rows -> p ∈ players /\ active p) /\
  StronglySorted (fun p q => money q < money p \/
                             (money p = money q /\ player_id p <= player_id q)) rows /\
  (0 <= limit ->
   length rows = Nat.min (Z.to_nat limit) (length (filter active players))) /\
  (forall p q, p ∈ rows -> q ∈ players -> active q -> q ∉ rows ->
     money q < money p \/ (money p = money q /\ player_id p <= player_id q)) /\
  (NoDup (map player_id players) ->
   forall players', players' ≡ₚ players -> _top_players_by_money players' limit = rows).
Proof.
  cbn zeta. unfold _top_players_by_money. cbn zeta.
  set (key := fun p : Player => (- money p, player_id p)).
  destruct (ranking_rows key (filter active players) limit) as (Hmem & Hsorted & Htop).
  assert (forall p q, ranks_before key p q ->
            money q < money p \/ (money p = money q /\ player_id p <= player_id q)) as Hkey.
  { intros p q Hr. apply key_le_spec in Hr. cbn in Hr. lia. }
  split_and!.
  - intros p Hp. apply Hmem in Hp. by apply list_elem_of_filter in Hp as [? ?].
  - rewrite <- (list_fmap_id (slice_to _ _)).
    eapply (StronglySorted_fmap id); [| exact Hsorted]. auto.
  - intros Hlimit. rewrite slice_to_length by done.
    by rewrite (Permutation_length (sorted_perm key _)).
  - intros p q Hp Hq Hact Hout. apply Hkey. apply Htop; [done | | done].
    by apply list_elem_of_filter.
  - intros Hnd players' Hperm.
    rewrite (sorted_unique key (filter active players) (filter active players'));
      [done | by apply players_keys_distinct | by rewrite Hperm].
Qed.

Lemma active_after_events gs evs :
  (forall pid q, players gs !! pid = Some q -> first_event_ts q = None) ->
  forall pid p, players (apply_events gs evs) !! pid = Some p ->
    (active p <-> pid ∈ map event_player evs).
Proof.
  intros Hfresh pid p. rewrite apply_events_players.
  destruct (events_of pid evs) as [|ev rest] eqn:E.
  - intros Hp. apply events_of_nil in E. unfold active.
    rewrite (Hfresh _ _ Hp). tauto.
  - intros Hp. simplify_eq.
    destruct (fold_player_activity rest (snd (registry_get (players gs) pid)) ev) as [Hf _].
    unfold active. rewrite Hf. split; [intros _ | done].
    destruct (decide (pid ∈ map event_player evs)) as [? | Hnot]; [done |].
    apply events_of_nil in Hnot. congruence.
Qed.

(** Who enters the ranking by balance after a run that starts from a
    registry without recorded activity: a player is active exactly when an
    event names it, so the rows are players named by an event, whatever their
    balance, and a registered player without events is left out even when its
    balance of zero is above the others'; with a limit that covers the
    registry every player named by an event has a row. *)
Theorem only_players_with_events_are_ranked (gs : GameState) (evs : list event) (limit : Z) :
  (forall pid q, players gs !! pid = Some q -> first_event_ts q = None) ->
  (forall pid p, players (apply_events gs evs) !! pid = Some p ->
     (active p <-> pid ∈ map event_player evs)) /\
  (forall p, p ∈ _top_players_by_money (values (apply_events gs evs)) limit ->
     exists pid, players (apply_events gs evs) !! pid = Some p /\
                 pid ∈ map event_player evs) /\
  (Z.of_nat (size (players (apply_events gs evs))) <= limit ->
   forall pid p, players (apply_events gs evs) !! pid = Some p ->
     pid ∈ map event_player evs ->
     p ∈ _top_players_by_money (values (apply_events gs evs)) limit).
Proof.
  intros Hfresh. pose proof (active_after_events gs evs Hfresh) as Hact.
  set (gs' := apply_events gs evs) in *.
  set (key := fun p : Player => (- money p, player_id p)).
  assert (forall p, p ∈ values gs' <-> exists pid, players gs' !! pid = Some p) as Hvals.
  { intros p. unfold values. rewrite list_elem_of_fmap. split.
    - intros ([pid q] & -> & Hin). exists pid. by apply elem_of_map_to_list in Hin.
    - intros [pid Hp]. exists (pid, p). split; [done |]. by apply elem_of_map_to_list. }
  split_and!; [done | |].
  - intros p Hp. unfold _top_players_by_money in Hp. cbn zeta in Hp.
    destruct (ranking_rows key (filter active (values gs')) limit) as (Hmem & _).
    apply Hmem in Hp. apply list_elem_of_filter in Hp as [Ha Hin].
    apply Hvals in Hin as [pid Hpid]. exists pid. split; [done |].
    by apply (Hact pid p).
  - intros Hlimit pid p Hp Hnamed. unfold _top_players_by_money. cbn zeta.
    unfold slice_to. destruct (limit <? 0) eqn:E; [lia |].
    rewrite take_ge.
    + rewrite sorted_perm. apply list_elem_of_filter. split; [by apply (Hact pid p) |].
      apply Hvals. eauto.
    + rewrite (Permutation_length (sorted_perm key _)).
      etrans; [apply length_filter |]. unfold values.
      rewrite length_fmap, length_map_to_list. lia.
Qed.

Lemma only_players_with_events_are_ranked_witness :
  (forall pid q,
     players (GameState_init {[1 := Player_init 1 None None]} None) !! pid = Some q ->
     first_event_ts q = None) /\
  forall p,
    p ∈ _top_players_by_money
          (values (apply_events (GameState_init {[1 := Player_init 1 None None]} None)
                     [MonEv (mkMoneyEvent 100 2 MONEY_REMOVE 5 [] None [])])) 10 ->
    exists pid,
      players (apply_events (GameState_init {[1 := Player_init 1 None None]} None)
                 [MonEv (mkMoneyEvent 100 2 MONEY_REMOVE 5 [] None [])]) !! pid = Some p /\
      pid ∈ map event_player [MonEv (mkMoneyEvent 100 2 MONEY_REMOVE 5 [] None [])].
Proof.
  split.
  - intros pid q H. cbn in H. apply lookup_singleton_Some in H as [_ <-]. reflexivity.
  - apply (only_players_with_events_are_ranked
             (GameState_init {[1 := Player_init 1 None None]} None)
             [MonEv (mkMoneyEvent 100 2 MONEY_REMOVE 5 [] None [])] 10).
    intros pid q H. cbn in H. apply lookup_singleton_Some in H as [_ <-]. reflexivity.
Defined.

End Rankings.

Section Tables.

Import Ledger Formatting Report.



















End Tables.

Section Queries.

Import Parsers State Combiner Props Ledger Formatting Report.






(** A session on the state that one inventory event leaves. *)
Example interactive_session :
  interactive_loop
    (apply_events (GameState_init ∅ None)
       [InvEv (mkInventoryEvent 100 1 ITEM_ADD [(5, 3)] None []);
        InvEv (mkInventoryEvent 200 2 ITEM_ADD [(5, 4)] None [])])
    {[5 := lit "sword"]}
    [lit " 5" ++ [newline]; [newline]; lit "five"]
  = Ok [lit "Название предмета: sword";
        lit "Общее количество в игре: 7";
        lit "Количество владельцев: 2";
        lit "Топ 10 игроков по предмету:";
        lit "unknown, 4";
        lit "unknown, 3";
        lit "Некорректный item_type_id: five"].
Proof. vm_compute. reflexivity. Qed.

(** A table of two columns. *)
Example table_of_two_columns :
  _write_table [Text (lit "#"); Text (lit "name")]
    [[Int 1; Text (lit "sword")]; [Int 10; Text (lit "axe")]] 2
  = Ok [lit "#   name ";
        lit "---------";
        lit "1   sword";
        lit "10  axe  ";
        []].
Proof. vm_compute. reflexivity. Qed.

End Queries.
